(** * A lexer and recursive-descent parser for a small C-like language

    Shallow embedding of [compiler.py]: the finite-state scanner
    [lexical_analyzer_from_text] with its transition function [next_state],
    and the class [Parser] with one procedure per nonterminal.

    Source text is a [string] whose characters are the code points 0..255;
    the predicates [str.isspace], [str.isalpha], [str.isdigit] and
    [str.isalnum] are tabulated from the Unicode character database for
    exactly those code points.  Python integers are unbounded, so line and
    column counters are [nat]; the scanner state is the [Z] the code uses
    (with [-1] for "no continuation"). *)

From Stdlib Require Import Bool Arith NArith ZArith Lia List Ascii String.
Import ListNotations.
Set Warnings "-register-all".
Open Scope string_scope.
Open Scope list_scope.

(** ** Characters *)

Module PyChar.

Definition ord (ch : ascii) : N := N_of_ascii ch.

Definition between (lo hi : N) (ch : ascii) : bool :=
  ((lo <=? ord ch) && (ord ch <=? hi))%N.

(** [ch.isspace()]: TAB..CR, FS..US, SPACE, NEL, NBSP. *)
Definition isspace (ch : ascii) : bool :=
  between 9 13 ch || between 28 32 ch || between 133 133 ch
  || between 160 160 ch.

(** [ch.isalpha()]: the letters of Basic Latin and Latin-1 Supplement. *)
Definition isalpha (ch : ascii) : bool :=
  between 65 90 ch || between 97 122 ch || between 170 170 ch
  || between 181 181 ch || between 186 186 ch || between 192 214 ch
  || between 216 246 ch || between 248 255 ch.

Definition isdecimal (ch : ascii) : bool := between 48 57 ch.

(** [ch.isdigit()]: decimal digits and the superscripts 1, 2, 3. *)
Definition isdigit (ch : ascii) : bool :=
  isdecimal ch || between 178 179 ch || between 185 185 ch.

(** [ch.isnumeric()]: the digits and the vulgar fractions. *)
Definition isnumeric (ch : ascii) : bool :=
  isdigit ch || between 188 190 ch.

(** [ch.isalnum()] is by definition the disjunction of the four below. *)
Definition isalnum (ch : ascii) : bool :=
  isalpha ch || isdecimal ch || isdigit ch || isnumeric ch.

End PyChar.
Import PyChar.

(** ** Token definitions *)

Definition newline : ascii := "010"%char.
Definition underscore : ascii := "_"%char.

Definition KEYWORDS : list string := ["int"; "float"; "double"; "if"; "else"].
Definition OPERATORS : list ascii :=
  ["+"; "-"; "*"; "/"; "%"; "="; "<"; ">"; "!"]%char.
Definition DOUBLE_OPERATORS : list string := ["=="; "!="; "<="; ">="].
Definition SIGNS : list ascii := [";"; "("; ")"; "{"; "}"]%char.

(** Membership in a Python set literal. *)
Definition in_chars (ch : ascii) (s : list ascii) : bool :=
  existsb (Ascii.eqb ch) s.
Definition in_strings (x : string) (s : list string) : bool :=
  existsb (String.eqb x) s.

(** The first component of a token tuple. *)
Inductive token_type : Type :=
  | KEYWORD | IDENTIFIER | INTEGER | OPERATOR | SIGN | UNKNOWN | EOF.

Definition token_type_eqb (a b : token_type) : bool :=
  match a, b with
  | KEYWORD, KEYWORD | IDENTIFIER, IDENTIFIER | INTEGER, INTEGER
  | OPERATOR, OPERATOR | SIGN, SIGN | UNKNOWN, UNKNOWN | EOF, EOF => true
  | _, _ => false
  end.

(** A token is the tuple [(token_type, text, line, column)]. *)
Record token : Type := Token {
  tok_type : token_type;
  tok_text : string;
  tok_line : nat;
  tok_col : nat
}.

(** ** Lexer *)

Definition next_state (current : Z) (ch : ascii) : Z :=
  if (current =? 0)%Z then
    if isspace ch then 0
    else if isalpha ch || Ascii.eqb ch underscore then 1
    else if isdigit ch then 3
    else if in_chars ch OPERATORS then 6
    else if in_chars ch SIGNS then 7
    else 8
  else if (current =? 1)%Z then
    if isalnum ch || Ascii.eqb ch underscore then 1 else (-1)
  else if (current =? 3)%Z then
    if isdigit ch then 3 else (-1)
  else (-1).

(** [buffer += next_ch] *)
Definition push (buffer : string) (ch : ascii) : string :=
  (buffer ++ String ch "")%string.

(** The inner [while] of the scanner: extend [buffer] while [next_state]
    accepts the next character.  The cursor [i] is kept as the unread
    suffix [code[i:]]; returns the final [(state, buffer, code[i:], col)]. *)
Fixpoint extend (state : Z) (buffer code : string) (col : nat)
  : Z * string * string * nat :=
  match code with
  | "" => (state, buffer, code, col)
  | String next_ch rest =>
      let new_state := next_state state next_ch in
      if (new_state =? -1)%Z then (state, buffer, code, col)
      else extend new_state (push buffer next_ch) rest (col + 1)
  end.

(** One iteration of the outer [while], entered with [ch = code[i]] and
    [rest = code[i+1:]]: the token appended in this iteration (if any) and
    the updated [(code[i:], line, col)]. *)
Definition lex_iteration (ch : ascii) (rest : string) (line col : nat)
  : option token * string * nat * nat :=
  if Ascii.eqb ch newline then (None, rest, line + 1, 1)
  else
    let state := next_state 0 ch in
    if (state =? 0)%Z then (None, rest, line, col + 1)
    else
      let start_line := line in
      let start_col := col in
      let '(state, buffer, code, col) :=
        extend state (String ch "") rest (col + 1) in
      if (state =? 1)%Z then
        let token_type :=
          if in_strings buffer KEYWORDS then KEYWORD else IDENTIFIER in
        (Some (Token token_type buffer start_line start_col), code, line, col)
      else if (state =? 3)%Z then
        (Some (Token INTEGER buffer start_line start_col), code, line, col)
      else if (state =? 6)%Z then
        match code with
        | String c code' =>
            let possible := push buffer c in
            if in_strings possible DOUBLE_OPERATORS then
              (Some (Token OPERATOR possible start_line start_col),
               code', line, col + 1)
            else
              (Some (Token OPERATOR buffer start_line start_col),
               code, line, col)
        | "" =>
            (Some (Token OPERATOR buffer start_line start_col),
             code, line, col)
        end
      else if (state =? 7)%Z then
        (Some (Token SIGN buffer start_line start_col), code, line, col)
      else
        (Some (Token UNKNOWN buffer start_line start_col), code, line, col).

(** [tokens.append(t)] when the iteration produced a token. *)
Definition emit (tokens : list token) (t : option token) : list token :=
  match t with
  | Some t => tokens ++ [t]
  | None => tokens
  end.

(** The outer [while i < len(code)], iterated at most [fuel] times; [None]
    only when the fuel runs out before the input does. *)
Fixpoint lex_loop (fuel : nat) (code : string) (line col : nat)
  (tokens : list token) : option (list token) :=
  match code with
  | "" => Some (tokens ++ [Token EOF "" line col])
  | String ch rest =>
      match fuel with
      | O => None
      | S fuel' =>
          let '(t, code', line', col') := lex_iteration ch rest line col in
          lex_loop fuel' code' line' col' (emit tokens t)
      end
  end.

Definition lexical_analyzer_from_text (code : string) : option (list token) :=
  lex_loop (String.length code) code 1 1 [].

(** ** Parser *)

(** AST nodes: the tagged tuples ["PROGRAM"], ["DECLARATION"],
    ["ASSIGNMENT"], ["IF"], ["BIN_OP"], ["NUMBER"] and ["IDENTIFIER"]. *)
Inductive node : Type :=
  | Program (statements : list node)
  | Declaration (type_name identifier : string) (initializer : option node)
  | Assignment (identifier : string) (value : node)
  | If (condition body : node)
  | BinaryOp (op : string) (left right : node)
  | Number (literal : string)
  | Identifier (name : string).

(** The three message prefixes the parser raises [SyntaxError] with; the
    message ends with the printed offending token. *)
Inductive message : Type :=
  | Unexpected_token | Invalid_statement | Invalid_expression.

Inductive exception : Type :=
  | SyntaxError (msg : message) (tok : token)
  | IndexError.

(** What a parsing procedure does from cursor [self.current]: return a
    value and the new cursor, raise, or exhaust the recursion fuel
    ([OutOfFuel], the interpreter's [RecursionError] when the calls nest
    deeper than its limit). *)
Inductive outcome (A : Type) : Type :=
  | Return (a : A) (current : nat)
  | Raise (e : exception)
  | OutOfFuel.
Arguments Return {A} a current.
Arguments Raise {A} e.
Arguments OutOfFuel {A}.

Definition Parser (A : Type) : Type := nat -> outcome A.

Definition ret {A} (a : A) : Parser A := fun current => Return a current.

Definition bind {A B} (m : Parser A) (f : A -> Parser B) : Parser B :=
  fun current =>
    match m current with
    | Return a current' => f a current'
    | Raise e => Raise e
    | OutOfFuel => OutOfFuel
    end.

Definition raise {A} (e : exception) : Parser A := fun _ => Raise e.
Definition out_of_fuel {A} : Parser A := fun _ => OutOfFuel.

Notation "x <- m ;; k" := (bind m (fun x => k))
  (at level 61, m at next level, right associativity).
Notation "m ;; k" := (bind m (fun _ => k))
  (at level 61, right associativity).

(** Truthiness of the optional argument [expected_value]. *)
Definition truthy (expected_value : option string) : bool :=
  match expected_value with
  | Some v => negb (String.eqb v "")
  | None => false
  end.

Definition value_differs (tok : token) (expected_value : option string)
  : bool :=
  match expected_value with
  | Some v => negb (String.eqb (tok_text tok) v)
  | None => true
  end.

Section Parser.

Variable tokens : list token.

(** [self.tokens[self.current]]; the cursor is never negative. *)
Definition peek : Parser token :=
  fun current =>
    match nth_error tokens current with
    | Some tok => Return tok current
    | None => Raise IndexError
    end.

Definition advance : Parser unit :=
  fun current => Return tt (current + 1).

Definition match_ (expected_type : token_type)
  (expected_value : option string) : Parser token :=
  tok <- peek ;;
  if negb (token_type_eqb (tok_type tok) expected_type) then
    raise (SyntaxError Unexpected_token tok)
  else if truthy expected_value && value_differs tok expected_value then
    raise (SyntaxError Unexpected_token tok)
  else
    advance ;; ret tok.

(** The condition [peek()[0] == "OPERATOR" and peek()[1] in ops]. *)
Definition is_operator_in (tok : token) (ops : list string) : bool :=
  token_type_eqb (tok_type tok) OPERATOR && in_strings (tok_text tok) ops.

(** [parse_expression], [parse_term] and [parse_factor], with the [while]
    loops of the first two as [expression_loop] and [term_loop]; every call
    and every loop iteration spends one unit of [fuel]. *)
Fixpoint parse_expression (fuel : nat) : Parser node :=
  match fuel with
  | O => out_of_fuel
  | S fuel =>
      left <- parse_term fuel ;;
      expression_loop fuel left
  end
with expression_loop (fuel : nat) (left : node) : Parser node :=
  match fuel with
  | O => out_of_fuel
  | S fuel =>
      tok <- peek ;;
      if is_operator_in tok ["+"; "-"; "<"; ">"; "=="] then
        op <- match_ OPERATOR None ;;
        right <- parse_term fuel ;;
        expression_loop fuel (BinaryOp (tok_text op) left right)
      else ret left
  end
with parse_term (fuel : nat) : Parser node :=
  match fuel with
  | O => out_of_fuel
  | S fuel =>
      left <- parse_factor fuel ;;
      term_loop fuel left
  end
with term_loop (fuel : nat) (left : node) : Parser node :=
  match fuel with
  | O => out_of_fuel
  | S fuel =>
      tok <- peek ;;
      if is_operator_in tok ["*"; "/"] then
        op <- match_ OPERATOR None ;;
        right <- parse_factor fuel ;;
        term_loop fuel (BinaryOp (tok_text op) left right)
      else ret left
  end
with parse_factor (fuel : nat) : Parser node :=
  match fuel with
  | O => out_of_fuel
  | S fuel =>
      tok <- peek ;;
      if token_type_eqb (tok_type tok) INTEGER then
        advance ;; ret (Number (tok_text tok))
      else if token_type_eqb (tok_type tok) IDENTIFIER then
        advance ;; ret (Identifier (tok_text tok))
      else if token_type_eqb (tok_type tok) SIGN
              && String.eqb (tok_text tok) "(" then
        match_ SIGN (Some "(") ;;
        expr <- parse_expression fuel ;;
        match_ SIGN (Some ")") ;;
        ret expr
      else raise (SyntaxError Invalid_expression tok)
  end.

Definition parse_declaration (fuel : nat) : Parser node :=
  type_tok <- match_ KEYWORD None ;;
  id_tok <- match_ IDENTIFIER None ;;
  tok <- peek ;;
  if token_type_eqb (tok_type tok) OPERATOR
     && String.eqb (tok_text tok) "=" then
    match_ OPERATOR (Some "=") ;;
    expr <- parse_expression fuel ;;
    match_ SIGN (Some ";") ;;
    ret (Declaration (tok_text type_tok) (tok_text id_tok) (Some expr))
  else
    match_ SIGN (Some ";") ;;
    ret (Declaration (tok_text type_tok) (tok_text id_tok) None).

Definition parse_assignment (fuel : nat) : Parser node :=
  id_tok <- match_ IDENTIFIER None ;;
  match_ OPERATOR (Some "=") ;;
  expr <- parse_expression fuel ;;
  match_ SIGN (Some ";") ;;
  ret (Assignment (tok_text id_tok) expr).

Fixpoint parse_statement (fuel : nat) : Parser node :=
  match fuel with
  | O => out_of_fuel
  | S fuel =>
      tok <- peek ;;
      if token_type_eqb (tok_type tok) KEYWORD
         && in_strings (tok_text tok) ["int"; "float"; "double"] then
        parse_declaration fuel
      else if token_type_eqb (tok_type tok) KEYWORD
              && String.eqb (tok_text tok) "if" then
        parse_if fuel
      else if token_type_eqb (tok_type tok) IDENTIFIER then
        parse_assignment fuel
      else raise (SyntaxError Invalid_statement tok)
  end
with parse_if (fuel : nat) : Parser node :=
  match fuel with
  | O => out_of_fuel
  | S fuel =>
      match_ KEYWORD (Some "if") ;;
      match_ SIGN (Some "(") ;;
      condition <- parse_expression fuel ;;
      match_ SIGN (Some ")") ;;
      stmt <- parse_statement fuel ;;
      ret (If condition stmt)
  end.

(** The [while] of [parse_program], [statements] being the list built so
    far. *)
Fixpoint program_loop (fuel : nat) (statements : list node) : Parser node :=
  match fuel with
  | O => out_of_fuel
  | S fuel =>
      tok <- peek ;;
      if negb (token_type_eqb (tok_type tok) EOF) then
        stmt <- parse_statement fuel ;;
        program_loop fuel (statements ++ [stmt])
      else ret (Program statements)
  end.

Definition parse_program (fuel : nat) : Parser node :=
  program_loop fuel [].

End Parser.

(** Fuel that is enough for every token list ending in [EOF] (see
    [parse_program_spec]); [parse_within] runs under any other budget. *)
Definition enough_fuel (tokens : list token) : nat :=
  3 * List.length tokens + 8.

(** [Parser(tokens).parse_program()], started at [self.current = 0], under
    the budget [enough_fuel]: the outcome when the recursion limit is not
    reached. *)
Definition parse (tokens : list token) : outcome node :=
  parse_program tokens (enough_fuel tokens) 0.

(** The core of [run_compiler]: [None] stands for the lexer running out of
    fuel, which [lexer_scans] excludes. *)
Definition run_compiler (source_code : string) : option (outcome node) :=
  match lexical_analyzer_from_text source_code with
  | Some tokens => Some (parse tokens)
  | None => None
  end.

(** * Specification vocabulary *)

(** Characters the scanner discards in its start state. *)
Definition blank (ch : ascii) : bool :=
  Ascii.eqb ch newline || isspace ch.

Fixpoint all_chars (p : ascii -> bool) (s : string) : bool :=
  match s with
  | "" => true
  | String ch s' => p ch && all_chars p s'
  end.

(** The source text with the discarded characters deleted. *)
Fixpoint strip (s : string) : string :=
  match s with
  | "" => ""
  | String ch s' => if blank ch then strip s' else String ch (strip s')
  end.

(** The texts of a token sequence, one after the other. *)
Fixpoint texts (toks : list token) : string :=
  match toks with
  | [] => ""
  | t :: toks' => (tok_text t ++ texts toks')%string
  end.

(** Number of newline characters of a piece of text. *)
Fixpoint newlines (s : string) : nat :=
  match s with
  | "" => 0
  | String ch s' => (if Ascii.eqb ch newline then 1 else 0) + newlines s'
  end.

Definition nonblank (s : string) : bool :=
  all_chars (fun ch => negb (blank ch)) s.

(** [accepts state ch]: in [state] the scanner appends [ch] to the token. *)
Definition accepts (state : Z) (ch : ascii) : bool :=
  negb (next_state state ch =? -1)%Z.

(** The kind of a complete lexeme, read off the transition function: a
    first character that leaves the start state, followed by characters
    the reached state accepts (or, for an operator, by the second
    character of a two-character operator). *)
Definition lexeme_type (text : string) : option token_type :=
  match text with
  | "" => None
  | String ch ext =>
      let state := next_state 0 ch in
      if (state =? 1)%Z then
        if all_chars (accepts 1) ext then
          Some (if in_strings text KEYWORDS then KEYWORD else IDENTIFIER)
        else None
      else if (state =? 3)%Z then
        if all_chars (accepts 3) ext then Some INTEGER else None
      else if (state =? 6)%Z then
        match ext with
        | "" => Some OPERATOR
        | _ => if in_strings text DOUBLE_OPERATORS then Some OPERATOR
               else None
        end
      else if (state =? 7)%Z then
        match ext with "" => Some SIGN | _ => None end
      else if (state =? 8)%Z then
        match ext with "" => Some UNKNOWN | _ => None end
      else None
  end.

(** [scans code line col toks l c]: reading [code] from position
    [(line, col)] discards blanks, cuts out the lexemes [toks] in order,
    and reaches the end of input at position [(l, c)]. *)
Inductive scans : string -> nat -> nat -> list token -> nat -> nat -> Prop :=
  | scans_end line col :
      scans "" line col [] line col
  | scans_newline rest line col toks l c :
      scans rest (line + 1) 1 toks l c ->
      scans (String newline rest) line col toks l c
  | scans_space ch rest line col toks l c :
      ch <> newline -> isspace ch = true ->
      scans rest line (col + 1) toks l c ->
      scans (String ch rest) line col toks l c
  | scans_token tok rest line col toks l c :
      lexeme_type (tok_text tok) = Some (tok_type tok) ->
      tok_line tok = line -> tok_col tok = col ->
      scans rest line (col + String.length (tok_text tok)) toks l c ->
      scans (tok_text tok ++ rest) line col (tok :: toks) l c.

(** Lexicographic order on [(line, column)]. *)
Definition pos_le (l1 c1 l2 c2 : nat) : Prop :=
  l1 < l2 \/ l1 = l2 /\ c1 <= c2.

Definition token_le (a b : token) : Prop :=
  pos_le (tok_line a) (tok_col a) (tok_line b) (tok_col b).

(** Consecutive tokens are in [token_le] order. *)
Fixpoint ordered (toks : list token) : Prop :=
  match toks with
  | [] => True
  | a :: rest =>
      match rest with
      | [] => True
      | b :: _ => token_le a b /\ ordered rest
      end
  end.

(** [before] is empty or ends with a newline: what follows it starts a
    line. *)
Definition line_start (before : string) : Prop :=
  before = "" \/ exists b, before = (b ++ String newline "")%string.

(** [located code t]: the text of [t] occurs in [code] after [before], a
    whole number of lines, and [line_prefix], the beginning of the token's
    own line; its line is one more than the newlines passed and its column
    one more than the characters before it on its line. *)
Definition located (code : string) (t : token) : Prop :=
  exists before line_prefix rest,
    code = (before ++ line_prefix ++ tok_text t ++ rest)%string /\
    line_start before /\ newlines line_prefix = 0 /\
    tok_line t = 1 + newlines before /\
    tok_col t = 1 + String.length line_prefix.

Definition space : ascii := " "%char.

(** [" ".join(t[1] for t in tokens)] *)
Definition joined (toks : list token) : string :=
  String.concat (String space "") (map tok_text toks).

(** [wp m current Q]: run from [current], the procedure [m] neither reads
    out of range nor runs out of fuel, and if it returns, its value and
    the new cursor satisfy [Q]. *)
Definition wp {A} (m : Parser A) (current : nat) (Q : A -> nat -> Prop)
  : Prop :=
  match m current with
  | Return a current' => Q a current'
  | Raise (SyntaxError _ _) => True
  | Raise IndexError => False
  | OutOfFuel => False
  end.

(** The operator texts some grammar rule accepts. *)
Definition grammar_operators : list string :=
  ["="; "+"; "-"; "<"; ">"; "=="; "*"; "/"].

(** A token the grammar can move the cursor over. *)
Definition consumable (t : token) : Prop :=
  tok_type t <> EOF /\
  (tok_type t = OPERATOR ->
   in_strings (tok_text t) grammar_operators = true).

(** The cursor is in range and has only moved over consumable tokens. *)
Definition cursor_ok (tokens : list token) (current : nat) : Prop :=
  current < List.length tokens /\
  forall i t, i < current -> nth_error tokens i = Some t -> consumable t.

(** ** Lexical classes *)

(** A character that can start an identifier, and one that can continue
    it: the tests of [next_state] in states 0 and 1. *)
Definition word_start (ch : ascii) : bool :=
  isalpha ch || Ascii.eqb ch underscore.
Definition word_char (ch : ascii) : bool :=
  isalnum ch || Ascii.eqb ch underscore.

(** What the text of a token of each type looks like. *)
Definition class_ok (t : token) : Prop :=
  match tok_type t with
  | KEYWORD => In (tok_text t) KEYWORDS
  | IDENTIFIER =>
      ~ In (tok_text t) KEYWORDS /\
      exists ch ext, tok_text t = String ch ext /\
                     word_start ch = true /\ all_chars word_char ext = true
  | INTEGER =>
      tok_text t <> "" /\ all_chars isdigit (tok_text t) = true
  | OPERATOR =>
      (exists ch, tok_text t = String ch "" /\ in_chars ch OPERATORS = true)
      \/ In (tok_text t) DOUBLE_OPERATORS
  | SIGN =>
      exists ch, tok_text t = String ch "" /\ in_chars ch SIGNS = true
  | UNKNOWN =>
      exists ch, tok_text t = String ch "" /\
                 isspace ch = false /\ word_start ch = false /\
                 isdigit ch = false /\ in_chars ch OPERATORS = false /\
                 in_chars ch SIGNS = false
  | EOF => tok_text t = ""
  end.

(** ** Longest match and spacing *)

(** [stops_after tok rest]: the token [tok] could not have been extended
    by the first character of [rest]. *)
Definition stops_after (tok : token) (rest : string) : Prop :=
  match rest with
  | "" => True
  | String c _ =>
      match tok_type tok with
      | KEYWORD | IDENTIFIER => word_char c = false
      | INTEGER => isdigit c = false
      | OPERATOR =>
          String.length (tok_text tok) = 1 ->
          in_strings (push (tok_text tok) c) DOUBLE_OPERATORS = false
      | _ => True
      end
  end.

(** [b] starts right where [a] ends. *)
Definition touches (a b : token) : Prop :=
  tok_line b = tok_line a /\
  tok_col b = tok_col a + String.length (tok_text a).

(** If [b] touches [a], its first character could not extend [a]. *)
Definition munch (a b : token) : Prop :=
  touches a b -> stops_after a (tok_text b).

(** [b] starts on a later line than [a], or on the same line at or after
    the end of [a]. *)
Definition apart (a b : token) : Prop :=
  tok_line a < tok_line b \/
  tok_line a = tok_line b /\
  tok_col a + String.length (tok_text a) <= tok_col b.

(** [R] holds of every two consecutive elements. *)
Fixpoint consecutive (R : token -> token -> Prop) (toks : list token)
  : Prop :=
  match toks with
  | [] => True
  | a :: rest =>
      match rest with
      | [] => True
      | b :: _ => R a b /\ consecutive R rest
      end
  end.

(** [scans] with the longest-match condition on every lexeme. *)
Inductive munches : string -> nat -> nat -> list token -> nat -> nat -> Prop :=
  | munches_end line col :
      munches "" line col [] line col
  | munches_newline rest line col toks l c :
      munches rest (line + 1) 1 toks l c ->
      munches (String newline rest) line col toks l c
  | munches_space ch rest line col toks l c :
      ch <> newline -> isspace ch = true ->
      munches rest line (col + 1) toks l c ->
      munches (String ch rest) line col toks l c
  | munches_token tok rest line col toks l c :
      lexeme_type (tok_text tok) = Some (tok_type tok) ->
      stops_after tok rest ->
      tok_line tok = line -> tok_col tok = col ->
      munches rest line (col + String.length (tok_text tok)) toks l c ->
      munches (tok_text tok ++ rest) line col (tok :: toks) l c.

(** ** Lines *)

(** The token [t] moved [k] lines down. *)
Definition shift_line (k : nat) (t : token) : token :=
  Token (tok_type t) (tok_text t) (tok_line t + k) (tok_col t).

(** ** Tokens of the grammar *)

(** The tokens some grammar rule steps over: the type keywords and [if],
    identifiers, integers, the operators of [parse_expression],
    [parse_term] and of the initializer, and the signs [;], [(] and [)]. *)
Definition grammatical (t : token) : Prop :=
  match tok_type t with
  | KEYWORD => In (tok_text t) ["int"; "float"; "double"; "if"]
  | IDENTIFIER | INTEGER => True
  | OPERATOR => In (tok_text t) grammar_operators
  | SIGN => In (tok_text t) [";"; "("; ")"]
  | UNKNOWN | EOF => False
  end.

(** The tokens at the indices [from <= i < to] are all grammatical. *)
Definition all_grammatical (tokens : list token) (from to : nat) : Prop :=
  forall i t, from <= i < to -> nth_error tokens i = Some t -> grammatical t.

(** [visits tokens m current]: when [m], run from [current], returns, it
    has moved the cursor forward over grammatical tokens only; when it
    raises [SyntaxError], it reports a token of the list at or after
    [current], having moved over grammatical tokens only to reach it. *)
Definition visits {A} (tokens : list token) (m : Parser A) (current : nat)
  : Prop :=
  match m current with
  | Return _ current' =>
      current <= current' /\ all_grammatical tokens current current'
  | Raise (SyntaxError _ tok) =>
      exists i, current <= i /\ nth_error tokens i = Some tok /\
                all_grammatical tokens current i
  | Raise IndexError => True
  | OutOfFuel => True
  end.

(** ** The grammar *)

(** The grammar the parser implements, as derivations over token lists:
    [Expression ts e] when the tokens [ts] are an expression with tree [e],
    and so on.  Binary operators nest to the left; [*] and [/] are in
    [Term], below [+], [-], [<], [>] and [==] in [Expression]. *)
Definition is_sign (t : token) (v : string) : Prop :=
  tok_type t = SIGN /\ tok_text t = v.

Definition is_keyword (t : token) (v : string) : Prop :=
  tok_type t = KEYWORD /\ tok_text t = v.

Definition is_equals (t : token) : Prop :=
  tok_type t = OPERATOR /\ tok_text t = "=".

Definition is_type_keyword (t : token) : Prop :=
  tok_type t = KEYWORD /\ In (tok_text t) ["int"; "float"; "double"].

Inductive Expression : list token -> node -> Prop :=
  | Expression_term ts e :
      Term ts e -> Expression ts e
  | Expression_binary ts1 op ts2 l r :
      Expression ts1 l ->
      is_operator_in op ["+"; "-"; "<"; ">"; "=="] = true ->
      Term ts2 r ->
      Expression (ts1 ++ op :: ts2) (BinaryOp (tok_text op) l r)
with Term : list token -> node -> Prop :=
  | Term_factor ts e :
      Factor ts e -> Term ts e
  | Term_binary ts1 op ts2 l r :
      Term ts1 l ->
      is_operator_in op ["*"; "/"] = true ->
      Factor ts2 r ->
      Term (ts1 ++ op :: ts2) (BinaryOp (tok_text op) l r)
with Factor : list token -> node -> Prop :=
  | Factor_number t :
      tok_type t = INTEGER -> Factor [t] (Number (tok_text t))
  | Factor_identifier t :
      tok_type t = IDENTIFIER -> Factor [t] (Identifier (tok_text t))
  | Factor_parenthesis open ts close e :
      is_sign open "(" -> Expression ts e -> is_sign close ")" ->
      Factor (open :: ts ++ [close]) e.

(** Induction on the three kinds of derivation at once. *)
Scheme Expression_mut := Minimality for Expression Sort Prop
  with Term_mut := Minimality for Term Sort Prop
  with Factor_mut := Minimality for Factor Sort Prop.
Combined Scheme grammar_mutind from Expression_mut, Term_mut, Factor_mut.

Inductive Statement : list token -> node -> Prop :=
  | Statement_declaration ty id semi :
      is_type_keyword ty -> tok_type id = IDENTIFIER -> is_sign semi ";" ->
      Statement [ty; id; semi]
                (Declaration (tok_text ty) (tok_text id) None)
  | Statement_initialized ty id eq ts semi e :
      is_type_keyword ty -> tok_type id = IDENTIFIER -> is_equals eq ->
      Expression ts e -> is_sign semi ";" ->
      Statement (ty :: id :: eq :: ts ++ [semi])
                (Declaration (tok_text ty) (tok_text id) (Some e))
  | Statement_assignment id eq ts semi e :
      tok_type id = IDENTIFIER -> is_equals eq ->
      Expression ts e -> is_sign semi ";" ->
      Statement (id :: eq :: ts ++ [semi]) (Assignment (tok_text id) e)
  | Statement_if kw open ts close body condition stmt :
      is_keyword kw "if" -> is_sign open "(" ->
      Expression ts condition -> is_sign close ")" ->
      Statement body stmt ->
      Statement (kw :: open :: ts ++ close :: body) (If condition stmt).

Inductive Statements : list token -> list node -> Prop :=
  | Statements_nil : Statements [] []
  | Statements_cons ts stmt rest stmts :
      Statement ts stmt -> Statements rest stmts ->
      Statements (ts ++ rest) (stmt :: stmts).

(** The tokens at the indices [from <= i < to]. *)
Definition slice (tokens : list token) (from to : nat) : list token :=
  firstn (to - from) (skipn from tokens).

(** [post m current Q]: if [m], run from [current], returns, then its
    value and the new cursor satisfy [Q]. *)
Definition post {A} (m : Parser A) (current : nat) (Q : A -> nat -> Prop)
  : Prop :=
  match m current with
  | Return a current' => Q a current'
  | Raise _ => True
  | OutOfFuel => True
  end.

(** ** Completeness vocabulary *)









(** ** Layout *)

(** Two tokens with the same type and text: they differ at most in their
    positions. *)
Definition same_key (a b : token) : Prop :=
  tok_type a = tok_type b /\ tok_text a = tok_text b.

(** Two outcomes that differ at most in the position of the reported
    token (and, for token values, of the returned one). *)
Definition similar {A} (R : A -> A -> Prop) (r r' : outcome A) : Prop :=
  match r, r' with
  | Return a c, Return a' c' => R a a' /\ c = c'
  | Raise (SyntaxError m t), Raise (SyntaxError m' t') =>
      m = m' /\ same_key t t'
  | Raise IndexError, Raise IndexError => True
  | OutOfFuel, OutOfFuel => True
  | _, _ => False
  end.

(** ** Recursion budget *)







(** * String toolkit *)

Lemma append_nil_r (s : string) : (s ++ "")%string = s.
Proof. induction s; simpl; congruence. Qed.

Lemma append_assoc (a b c : string) :
  ((a ++ b) ++ c)%string = (a ++ (b ++ c))%string.
Proof. induction a; simpl; congruence. Qed.

Lemma length_append (a b : string) :
  String.length (a ++ b) = String.length a + String.length b.
Proof. induction a; simpl; auto. Qed.

Lemma all_chars_append p (a b : string) :
  all_chars p (a ++ b) = all_chars p a && all_chars p b.
Proof.
  induction a as [|ch a IH]; simpl; [reflexivity|].
  rewrite IH. apply andb_assoc.
Qed.

Lemma strip_append (a b : string) :
  strip (a ++ b) = (strip a ++ strip b)%string.
Proof.
  induction a as [|ch a IH]; simpl; [reflexivity|].
  destruct (blank ch); simpl; congruence.
Qed.

Lemma strip_nonblank (s : string) :
  all_chars (fun ch => negb (blank ch)) s = true -> strip s = s.
Proof.
  induction s as [|ch s IH]; simpl; [reflexivity|].
  intros H. apply andb_prop in H as [Hc Hs].
  destruct (blank ch); [discriminate|]. now rewrite IH.
Qed.

Lemma newlines_append (a b : string) :
  newlines (a ++ b) = newlines a + newlines b.
Proof. induction a; simpl; lia. Qed.

Lemma newlines_nonblank (s : string) :
  all_chars (fun ch => negb (blank ch)) s = true -> newlines s = 0.
Proof.
  induction s as [|ch s IH]; simpl; [reflexivity|].
  intros H. apply andb_prop in H as [Hc Hs]. unfold blank in Hc.
  destruct (Ascii.eqb ch newline); [discriminate|]. now rewrite IH.
Qed.

Lemma texts_app (a b : list token) :
  texts (a ++ b) = (texts a ++ texts b)%string.
Proof.
  induction a as [|t a IH]; simpl; [reflexivity|].
  now rewrite IH, append_assoc.
Qed.

(** * Facts about the character tables *)

Ltac by_table ch :=
  destruct ch as [[] [] [] [] [] [] [] []]; vm_compute; intuition congruence.

Lemma isalnum_not_blank ch :
  isalnum ch || Ascii.eqb ch underscore = true -> blank ch = false.
Proof. by_table ch. Qed.

Lemma isdigit_not_blank ch : isdigit ch = true -> blank ch = false.
Proof. by_table ch. Qed.

Lemma isspace_blank ch : isspace ch = true -> blank ch = true.
Proof. unfold blank. intros ->. apply orb_true_r. Qed.

(** * The transition function *)

Lemma next_state_start ch :
  next_state 0 ch = 0%Z /\ isspace ch = true \/
  isspace ch = false /\
  (next_state 0 ch = 1 \/ next_state 0 ch = 3 \/ next_state 0 ch = 6 \/
   next_state 0 ch = 7 \/ next_state 0 ch = 8)%Z.
Proof.
  unfold next_state. change (0 =? 0)%Z with true. cbv iota.
  destruct (isspace ch); [left; auto | right; split; [reflexivity|]].
  destruct (isalpha ch || Ascii.eqb ch underscore); [tauto|].
  destruct (isdigit ch); [tauto|].
  destruct (in_chars ch OPERATORS); [tauto|].
  destruct (in_chars ch SIGNS); tauto.
Qed.

(** Outside the start state a character either keeps the state or stops
    the token, and a character that keeps it is not blank. *)
Lemma next_state_continue state ch :
  state <> 0%Z ->
  next_state state ch = (-1)%Z \/
  next_state state ch = state /\ (state = 1 \/ state = 3)%Z /\
  blank ch = false.
Proof.
  intros Hs. unfold next_state.
  destruct (Z.eqb_spec state 0); [contradiction|].
  destruct (Z.eqb_spec state 1) as [->|].
  - destruct (isalnum ch || Ascii.eqb ch underscore) eqn:E; [right|left; auto].
    auto using isalnum_not_blank.
  - destruct (Z.eqb_spec state 3) as [->|]; [|left; auto].
    destruct (isdigit ch) eqn:E; [right|left; auto].
    auto using isdigit_not_blank.
Qed.

Lemma accepts_nonblank state s :
  state <> 0%Z -> all_chars (accepts state) s = true -> nonblank s = true.
Proof.
  intros Hs. unfold nonblank.
  induction s as [|ch s IH]; simpl; [reflexivity|].
  intros H. apply andb_prop in H as [Hc Hr]. rewrite (IH Hr).
  unfold accepts in Hc. apply negb_true_iff, Z.eqb_neq in Hc.
  destruct (next_state_continue state ch Hs) as [E | (_ & _ & ->)];
    [contradiction | reflexivity].
Qed.

(** The inner loop moves into the buffer a prefix of the input made of
    characters the state accepts, and leaves the state as it was. *)
Lemma extend_spec code : forall state buffer col state' buffer' code' col',
  state <> 0%Z -> state <> (-1)%Z ->
  extend state buffer code col = (state', buffer', code', col') ->
  exists ext,
    buffer' = (buffer ++ ext)%string /\ code = (ext ++ code')%string /\
    col' = col + String.length ext /\ all_chars (accepts state) ext = true /\
    state' = state /\
    (state <> 1%Z -> state <> 3%Z -> ext = "").
Proof.
  induction code as [|ch code IH];
    intros state buffer col st' buf' code' col' Hs Hm.
  - simpl. intros [= <- <- <- <-]. exists "".
    rewrite append_nil_r. repeat split; auto.
  - simpl. destruct (next_state_continue state ch Hs) as [E | (E & Hst & Hb)].
    + rewrite E. simpl. intros [= <- <- <- <-]. exists "".
      rewrite append_nil_r. repeat split; auto.
    + rewrite E. destruct (Z.eqb_spec state (-1)) as [->|_]; [lia|].
      intros H. apply IH in H; [|assumption..].
      destruct H as (ext & -> & -> & -> & Hacc & -> & _).
      exists (String ch ext). unfold push. rewrite append_assoc. simpl.
      unfold accepts at 1. rewrite E, Hacc.
      destruct (Z.eqb_spec state (-1)); [contradiction|].
      repeat split; auto; lia.
Qed.

(** ** Lexemes *)

Lemma double_operator_inv text :
  in_strings text DOUBLE_OPERATORS = true ->
  exists ch, text = String ch (String "="%char "").
Proof.
  unfold in_strings. intros H.
  apply existsb_exists in H as (x & Hin & Heq).
  apply String.eqb_eq in Heq. subst x. simpl in Hin.
  destruct Hin as [<-|[<-|[<-|[<-|[]]]]]; eauto.
Qed.

Lemma double_operator_second ch c :
  in_strings (push (String ch "") c) DOUBLE_OPERATORS = true ->
  c = "="%char.
Proof.
  intros H. apply double_operator_inv in H as (x & H).
  unfold push in H. simpl in H. congruence.
Qed.

Lemma lexeme_type_nonblank text ty :
  lexeme_type text = Some ty -> nonblank text = true.
Proof.
  destruct text as [|ch ext]; [discriminate|]. unfold lexeme_type.
  destruct (next_state_start ch) as [[E _] | [Hsp E]].
  { rewrite E. discriminate. }
  assert (Hch : negb (blank ch) = true).
  { unfold blank. rewrite Hsp, orb_false_r.
    destruct (Ascii.eqb_spec ch newline) as [->|]; [discriminate|reflexivity]. }
  unfold nonblank. simpl all_chars. rewrite Hch. simpl andb.
  destruct E as [E|[E|[E|[E|E]]]]; rewrite E; simpl Z.eqb; cbv iota.
  - destruct (all_chars (accepts 1) ext) eqn:A; [|discriminate].
    intros _. apply (accepts_nonblank 1); [lia|assumption].
  - destruct (all_chars (accepts 3) ext) eqn:A; [|discriminate].
    intros _. apply (accepts_nonblank 3); [lia|assumption].
  - destruct ext as [|c ext]; [reflexivity|].
    destruct (in_strings _ _) eqn:D; [|discriminate]. intros _.
    destruct ext as [|c' ext].
    + apply double_operator_second in D. subst c. reflexivity.
    + apply double_operator_inv in D as (x & D). discriminate.
  - destruct ext; [reflexivity|discriminate].
  - destruct ext; [reflexivity|discriminate].
Qed.

Lemma lexeme_type_not_EOF text : lexeme_type text <> Some EOF.
Proof.
  destruct text as [|ch ext]; [discriminate|]. unfold lexeme_type.
  repeat match goal with
         | |- context [if ?b then _ else _] => destruct b
         | |- context [match ?e with "" => _ | String _ _ => _ end] =>
             destruct e
         end; discriminate.
Qed.

(** Only a single character outside every lexical class is [UNKNOWN]. *)
Lemma lexeme_type_UNKNOWN text :
  lexeme_type text = Some UNKNOWN ->
  exists ch, text = String ch "" /\ next_state 0 ch = 8%Z.
Proof.
  destruct text as [|ch ext]; [discriminate|]. unfold lexeme_type.
  destruct (next_state_start ch) as [[E _] | [_ E]].
  { rewrite E. discriminate. }
  destruct E as [E|[E|[E|[E|E]]]]; rewrite E; simpl Z.eqb; cbv iota.
  - destruct (all_chars _ _); [|discriminate].
    destruct (in_strings _ _); discriminate.
  - destruct (all_chars _ _); discriminate.
  - destruct ext; [discriminate|]. destruct (in_strings _ _); discriminate.
  - destruct ext; discriminate.
  - destruct ext; [|discriminate]. intros _. eauto.
Qed.

Section LexemeIntro.

Variables (ch : ascii) (ext : string).

Lemma lexeme_type_word :
  next_state 0 ch = 1%Z -> all_chars (accepts 1) ext = true ->
  lexeme_type (String ch ext) =
  Some (if in_strings (String ch ext) KEYWORDS then KEYWORD else IDENTIFIER).
Proof. unfold lexeme_type. now intros -> ->. Qed.

Lemma lexeme_type_integer :
  next_state 0 ch = 3%Z -> all_chars (accepts 3) ext = true ->
  lexeme_type (String ch ext) = Some INTEGER.
Proof. unfold lexeme_type. now intros -> ->. Qed.

Lemma lexeme_type_operator :
  next_state 0 ch = 6%Z -> lexeme_type (String ch "") = Some OPERATOR.
Proof. unfold lexeme_type. now intros ->. Qed.

Lemma lexeme_type_double c :
  next_state 0 ch = 6%Z ->
  in_strings (push (String ch "") c) DOUBLE_OPERATORS = true ->
  lexeme_type (push (String ch "") c) = Some OPERATOR.
Proof.
  unfold push. simpl append. unfold lexeme_type. now intros -> ->.
Qed.

Lemma lexeme_type_sign :
  next_state 0 ch = 7%Z -> lexeme_type (String ch "") = Some SIGN.
Proof. unfold lexeme_type. now intros ->. Qed.

Lemma lexeme_type_unknown :
  next_state 0 ch = 8%Z -> lexeme_type (String ch "") = Some UNKNOWN.
Proof. unfold lexeme_type. now intros ->. Qed.

End LexemeIntro.

(** ** One iteration of the scanner *)

(** What one iteration consumes: either one blank character and no token,
    or a complete lexeme recorded at the position the iteration started
    from. *)
Lemma lex_iteration_spec ch rest line col t code' line' col' :
  lex_iteration ch rest line col = (t, code', line', col') ->
  match t with
  | None =>
      code' = rest /\
      (ch = newline /\ line' = line + 1 /\ col' = 1 \/
       ch <> newline /\ isspace ch = true /\ line' = line /\ col' = col + 1)
  | Some tok =>
      String ch rest = (tok_text tok ++ code')%string /\
      lexeme_type (tok_text tok) = Some (tok_type tok) /\
      tok_line tok = line /\ tok_col tok = col /\
      line' = line /\ col' = col + String.length (tok_text tok)
  end.
Proof.
  unfold lex_iteration.
  destruct (Ascii.eqb_spec ch newline) as [->|Hnl].
  { intros [= <- <- <- <-]. tauto. }
  destruct (next_state_start ch) as [[E Hsp] | [Hsp E]].
  { rewrite E. simpl. intros [= <- <- <- <-]. tauto. }
  assert (H0 : next_state 0 ch <> 0%Z) by lia.
  assert (Hm : next_state 0 ch <> (-1)%Z) by lia.
  destruct (Z.eqb_spec (next_state 0 ch) 0) as [|_]; [contradiction|].
  destruct (extend (next_state 0 ch) (String ch "") rest (col + 1))
    as [[[state buffer] code] col1] eqn:X.
  apply extend_spec in X; [|assumption..].
  destruct X as (ext & -> & -> & -> & Hacc & -> & Hext).
  simpl append.
  destruct E as [E|[E|[E|[E|E]]]]; rewrite E in *; simpl Z.eqb; cbv iota.
  - intros [= <- <- <- <-]. cbn [tok_text tok_type tok_line tok_col].
    rewrite lexeme_type_word by assumption. simpl String.length.
    repeat split; auto; lia.
  - intros [= <- <- <- <-]. cbn [tok_text tok_type tok_line tok_col].
    rewrite lexeme_type_integer by assumption. simpl String.length.
    repeat split; auto; lia.
  - rewrite (Hext ltac:(lia) ltac:(lia)) in *. simpl append.
    destruct code as [|c code].
    + intros [= <- <- <- <-]. cbn [tok_text tok_type tok_line tok_col].
      rewrite lexeme_type_operator by assumption. simpl String.length.
      repeat split; auto; lia.
    + destruct (in_strings (push (String ch "") c) DOUBLE_OPERATORS) eqn:D.
      * intros [= <- <- <- <-]. cbn [tok_text tok_type tok_line tok_col].
        rewrite lexeme_type_double by assumption.
        unfold push. simpl. repeat split; auto; lia.
      * intros [= <- <- <- <-]. cbn [tok_text tok_type tok_line tok_col].
        rewrite lexeme_type_operator by assumption. simpl String.length.
        repeat split; auto; lia.
  - rewrite (Hext ltac:(lia) ltac:(lia)) in *. simpl append.
    intros [= <- <- <- <-]. cbn [tok_text tok_type tok_line tok_col].
    rewrite lexeme_type_sign by assumption. simpl String.length.
    repeat split; auto; lia.
  - rewrite (Hext ltac:(lia) ltac:(lia)) in *. simpl append.
    intros [= <- <- <- <-]. cbn [tok_text tok_type tok_line tok_col].
    rewrite lexeme_type_unknown by assumption. simpl String.length.
    repeat split; auto; lia.
Qed.

(** ** The scanner loop as a segmentation of the input *)

Lemma lexeme_nonempty text ty :
  lexeme_type text = Some ty -> 0 < String.length text.
Proof. destruct text; [discriminate | simpl; lia]. Qed.

(** With one unit of fuel per character the loop runs to the end of the
    input, and what it appends is a segmentation followed by [EOF]. *)
Lemma lex_loop_scans fuel : forall code line col tokens,
  String.length code <= fuel ->
  exists toks l c,
    lex_loop fuel code line col tokens
    = Some (tokens ++ toks ++ [Token EOF "" l c]) /\
    scans code line col toks l c.
Proof.
  induction fuel as [|fuel IH]; intros code line col tokens Hlen.
  - destruct code; [|simpl in Hlen; lia].
    exists [], line, col. split; [reflexivity | constructor].
  - destruct code as [|ch rest].
    { exists [], line, col. split; [reflexivity | constructor]. }
    simpl lex_loop.
    destruct (lex_iteration ch rest line col) as [[[t code'] line'] col']
      eqn:It.
    apply lex_iteration_spec in It. destruct t as [tok|].
    + destruct It as (Hcode & Hty & Hl & Hc & -> & ->).
      pose proof (lexeme_nonempty _ _ Hty) as Hne.
      assert (Hlen' : String.length code' <= fuel).
      { apply (f_equal String.length) in Hcode.
        rewrite length_append in Hcode. simpl in Hcode, Hlen. lia. }
      destruct (IH code' line (col + String.length (tok_text tok))
                  (emit tokens (Some tok)) Hlen') as (toks & l & c & E & Sc).
      exists (tok :: toks), l, c. split.
      * rewrite E. simpl emit. now rewrite <- app_assoc.
      * rewrite Hcode. now constructor.
    + destruct It as (-> & [(-> & -> & ->) | (Hnl & Hsp & -> & ->)]);
        simpl in Hlen;
        (edestruct IH as (toks & l & c & E & Sc); [|
           exists toks, l, c; split; [exact E|]]); try lia.
      * now constructor.
      * now constructor.
Qed.

Lemma lexer_scans code :
  exists toks l c,
    lexical_analyzer_from_text code = Some (toks ++ [Token EOF "" l c]) /\
    scans code 1 1 toks l c.
Proof.
  unfold lexical_analyzer_from_text.
  destruct (lex_loop_scans (String.length code) code 1 1 [] (le_n _))
    as (toks & l & c & E & Sc).
  exists toks, l, c. now split.
Qed.

(** *** Consequences of a segmentation *)

Lemma scans_lexemes code line col toks l c :
  scans code line col toks l c ->
  Forall (fun t => lexeme_type (tok_text t) = Some (tok_type t)) toks.
Proof. induction 1; auto. Qed.

Lemma scans_texts code line col toks l c :
  scans code line col toks l c -> texts toks = strip code.
Proof.
  induction 1 as [| | ch rest line col toks l c Hnl Hsp _ IH
                  | tok rest line col toks l c Hty _ _ _ IH]; simpl.
  - reflexivity.
  - assumption.
  - unfold blank. now rewrite Hsp, orb_true_r.
  - rewrite strip_append, IH. f_equal. symmetry.
    apply strip_nonblank. exact (lexeme_type_nonblank _ _ Hty).
Qed.

Lemma scans_blank code line col toks l c :
  scans code line col toks l c -> all_chars blank code = true -> toks = [].
Proof.
  induction 1 as [| rest line col toks l c _ IH
                  | ch rest line col toks l c _ _ _ IH
                  | tok rest line col toks l c Hty _ _ _ IH]; simpl.
  - reflexivity.
  - exact IH.
  - intros Hb. apply andb_prop in Hb as [_ Hb]. auto.
  - intros Hb. exfalso. rewrite all_chars_append in Hb.
    apply andb_prop in Hb as [Hb _].
    pose proof (lexeme_type_nonblank _ _ Hty) as Hnb. unfold nonblank in Hnb.
    destruct (tok_text tok) as [|ch ext]; [discriminate|]. simpl in *.
    destruct (blank ch); discriminate.
Qed.

(** ** Positions *)

Lemma pos_le_refl l c : pos_le l c l c.
Proof. right. split; auto. Qed.

Lemma pos_le_trans l1 c1 l2 c2 l3 c3 :
  pos_le l1 c1 l2 c2 -> pos_le l2 c2 l3 c3 -> pos_le l1 c1 l3 c3.
Proof. unfold pos_le. lia. Qed.

(** Every token of a segmentation, and the final position, is at or after
    the position the scan started from; the tokens with the closing [EOF]
    are ordered. *)
Lemma scans_ordered code line col toks l c :
  scans code line col toks l c ->
  pos_le line col l c /\
  Forall (fun t => pos_le line col (tok_line t) (tok_col t)) toks /\
  ordered (toks ++ [Token EOF "" l c]).
Proof.
  induction 1 as [line col
                  | rest line col toks l c _ (IHp & IHf & IHo)
                  | ch rest line col toks l c _ _ _ (IHp & IHf & IHo)
                  | tok rest line col toks l c _ Hl Hc _ (IHp & IHf & IHo)].
  - split; [apply pos_le_refl|]. split; [constructor | exact I].
  - assert (Hstep : pos_le line col (line + 1) 1) by (left; lia).
    split; [eapply pos_le_trans; eauto|]. split; [|assumption].
    eapply Forall_impl; [|exact IHf]. intros t Ht.
    eapply pos_le_trans; eauto.
  - assert (Hstep : pos_le line col line (col + 1)) by (right; lia).
    split; [eapply pos_le_trans; eauto|]. split; [|assumption].
    eapply Forall_impl; [|exact IHf]. intros t Ht.
    eapply pos_le_trans; eauto.
  - assert (Hstep : pos_le line col line (col + String.length (tok_text tok)))
      by (right; lia).
    split; [eapply pos_le_trans; eauto|]. split.
    + constructor; [rewrite Hl, Hc; apply pos_le_refl|].
      eapply Forall_impl; [|exact IHf]. intros t Ht.
      eapply pos_le_trans; eauto.
    + simpl. destruct toks as [|t toks]; simpl in *.
      * split; [|exact I]. unfold token_le. simpl. rewrite Hl, Hc.
        eapply pos_le_trans; eauto.
      * split; [|assumption]. unfold token_le. rewrite Hl, Hc.
        inversion IHf; subst. eapply pos_le_trans; eauto.
Qed.

Lemma scans_located code line col toks l c :
  scans code line col toks l c ->
  forall before line_prefix,
    line_start before -> newlines line_prefix = 0 ->
    line = 1 + newlines before -> col = 1 + String.length line_prefix ->
    Forall (located (before ++ line_prefix ++ code))
           (toks ++ [Token EOF "" l c]).
Proof.
  induction 1 as [line col
                  | rest line col toks l c _ IH
                  | ch rest line col toks l c Hnl _ _ IH
                  | tok rest line col toks l c Hty Hl Hc _ IH];
    intros before lp Hb Hlp Hline Hcol.
  - constructor; [|constructor]. exists before, lp, "". simpl. auto.
  - specialize (IH (before ++ lp ++ String newline "")%string "").
    simpl in IH. rewrite !append_assoc in IH. simpl in IH. apply IH.
    + right. exists (before ++ lp)%string. now rewrite append_assoc.
    + reflexivity.
    + rewrite !newlines_append. simpl. lia.
    + reflexivity.
  - specialize (IH before (lp ++ String ch "")%string).
    rewrite !append_assoc in IH. simpl in IH. apply IH; auto.
    + rewrite newlines_append. simpl.
      destruct (Ascii.eqb_spec ch newline); [contradiction|lia].
    + rewrite length_append. simpl. lia.
  - simpl. constructor.
    + exists before, lp, rest. repeat split; auto; lia.
    + specialize (IH before (lp ++ tok_text tok)%string).
      rewrite !append_assoc in IH. apply IH; auto.
      * rewrite newlines_append, Hlp. simpl. apply newlines_nonblank.
        exact (lexeme_type_nonblank _ _ Hty).
      * rewrite length_append. lia.
Qed.

Lemma scans_final_line code line col toks l c :
  scans code line col toks l c -> l = line + newlines code.
Proof.
  induction 1 as [line col
                  | rest line col toks l c _ IH
                  | ch rest line col toks l c Hnl _ _ IH
                  | tok rest line col toks l c Hty _ _ _ IH]; simpl.
  - lia.
  - lia.
  - destruct (Ascii.eqb_spec ch newline); [contradiction|lia].
  - rewrite newlines_append.
    rewrite (newlines_nonblank _ (lexeme_type_nonblank _ _ Hty)). lia.
Qed.


Lemma unknown_start ch :
  next_state 0 ch = 8%Z -> Ascii.eqb ch newline = false.
Proof. by_table ch. Qed.

Lemma extend_stops state buffer code col :
  state <> 0%Z -> state <> 1%Z -> state <> 3%Z ->
  extend state buffer code col = (state, buffer, code, col).
Proof.
  intros H0 H1 H3. destruct code as [|ch code]; [reflexivity|].
  simpl. unfold next_state.
  destruct (Z.eqb_spec state 0); [contradiction|].
  destruct (Z.eqb_spec state 1); [contradiction|].
  destruct (Z.eqb_spec state 3); [contradiction|].
  reflexivity.
Qed.

(** * The lexer's properties *)



(** C6. The positions of the tokens are non-decreasing in sequence order,
    and each token is recorded at the position of its first character:
    its line is one more than the number of newlines before it and its
    column one more than the number of characters before it on its line
    (so the column is 1 right after a newline). *)
Theorem token_positions (code : string) :
  exists toks,
    lexical_analyzer_from_text code = Some toks /\
    ordered toks /\ Forall (located code) toks.
Proof.
  destruct (lexer_scans code) as (toks & l & c & E & Sc).
  exists (toks ++ [Token EOF "" l c]). split; [exact E|]. split.
  - apply (scans_ordered _ _ _ _ _ _ Sc).
  - apply (scans_located _ _ _ _ _ _ Sc "" ""); try reflexivity.
    now left.
Qed.

(** C7. The texts of the tokens, in order, are exactly the source with
    its whitespace and newline characters removed: every other character
    occurs in exactly one token's text, none is dropped or repeated. *)
Theorem tokens_cover_source (code : string) :
  exists toks,
    lexical_analyzer_from_text code = Some toks /\
    texts toks = strip code.
Proof.
  destruct (lexer_scans code) as (toks & l & c & E & Sc).
  exists (toks ++ [Token EOF "" l c]). split; [exact E|].
  rewrite texts_app. simpl. rewrite append_nil_r.
  exact (scans_texts _ _ _ _ _ _ Sc).
Qed.

(** C10. The empty input yields just [EOF] at line 1, column 1, and an
    input of whitespace and newlines only yields just [EOF], on the line
    after the last newline. *)
Theorem tokenize_blank_input :
  lexical_analyzer_from_text "" = Some [Token EOF "" 1 1] /\
  (forall code,
     all_chars blank code = true ->
     exists c,
       lexical_analyzer_from_text code
       = Some [Token EOF "" (1 + newlines code) c]).
Proof.
  split; [reflexivity|]. intros code Hb.
  destruct (lexer_scans code) as (toks & l & c & E & Sc).
  rewrite (scans_blank _ _ _ _ _ _ Sc Hb) in E.
  rewrite (scans_final_line _ _ _ _ _ _ Sc) in E.
  exists c. exact E.
Qed.

Lemma tokenize_blank_input_witness :
  exists c,
    lexical_analyzer_from_text (String " " (String newline (String "009" "")))
    = Some [Token EOF "" 2 c].
Proof.
  exact (proj2 tokenize_blank_input
           (String " " (String newline (String "009" ""))) eq_refl).
Defined.

(** ** Lexing lexemes again *)

Lemma concat_cons sep x y ys :
  String.concat sep (x :: y :: ys)
  = (x ++ sep ++ String.concat sep (y :: ys))%string.
Proof. reflexivity. Qed.

Lemma extend_accepted ext : forall state buffer stop rest col,
  state = 1%Z \/ state = 3%Z ->
  all_chars (accepts state) ext = true ->
  accepts state stop = false ->
  extend state buffer (ext ++ String stop rest) col
  = (state, (buffer ++ ext)%string, String stop rest,
     col + String.length ext).
Proof.
  induction ext as [|ch ext IH]; intros state buffer stop rest col Hs Hacc Hstop.
  - simpl. unfold accepts in Hstop. apply negb_false_iff in Hstop.
    rewrite Hstop, append_nil_r. f_equal. lia.
  - simpl in Hacc. apply andb_prop in Hacc as [Hch Hacc].
    simpl. unfold accepts in Hch. apply negb_true_iff in Hch. rewrite Hch.
    destruct (next_state_continue state ch ltac:(lia)) as [E | (E & _ & _)].
    { apply Z.eqb_neq in Hch. contradiction. }
    rewrite E, IH by assumption. unfold push. rewrite append_assoc. simpl.
    f_equal. lia.
Qed.

Lemma not_double_with_space ch :
  in_strings (push (String ch "") space) DOUBLE_OPERATORS = false.
Proof.
  destruct (in_strings _ _) eqn:D; [|reflexivity].
  apply double_operator_second in D. discriminate.
Qed.

(** A lexeme followed by a space is cut out again by one iteration, with
    the same kind and text. *)
Lemma relex_iteration ch ext ty rest line col :
  lexeme_type (String ch ext) = Some ty ->
  lex_iteration ch (ext ++ String space rest) line col
  = (Some (Token ty (String ch ext) line col), String space rest, line,
     col + String.length (String ch ext)).
Proof.
  unfold lexeme_type, lex_iteration.
  destruct (next_state_start ch) as [[E _] | [Hsp E]].
  { rewrite E. discriminate. }
  destruct (Ascii.eqb_spec ch newline) as [->|_]; [discriminate|].
  destruct E as [E|[E|[E|[E|E]]]]; rewrite E; simpl Z.eqb; cbv iota.
  - destruct (all_chars (accepts 1) ext) eqn:A; [|discriminate].
    intros [= <-]. rewrite extend_accepted by auto. simpl.
    f_equal; lia.
  - destruct (all_chars (accepts 3) ext) eqn:A; [|discriminate].
    intros [= <-]. rewrite extend_accepted by auto. simpl.
    f_equal; lia.
  - rewrite extend_stops by lia. destruct ext as [|c ext].
    + intros [= <-]. simpl append. cbv beta iota zeta.
      rewrite not_double_with_space. simpl. f_equal; lia.
    + destruct (in_strings _ _) eqn:D; [|discriminate]. intros [= <-].
      destruct (double_operator_inv _ D) as (x & [= -> -> ->]).
      simpl append. cbv beta iota zeta. unfold push in *.
      simpl append in *. rewrite D. simpl. f_equal; lia.
  - rewrite extend_stops by lia.
    destruct ext; [|discriminate]. intros [= <-]. simpl.
    f_equal; lia.
  - rewrite extend_stops by lia.
    destruct ext; [|discriminate]. intros [= <-]. simpl.
    f_equal; lia.
Qed.

Lemma lex_iteration_space rest line col :
  lex_iteration space rest line col = (None, rest, line, col + 1).
Proof. reflexivity. Qed.

(** Lexing the space-separated texts of lexemes (closed by the empty text
    of [EOF]) gives back tokens of the same kinds and texts. *)
Lemma relex_loop toks : forall fuel line col tokens,
  Forall (fun t => lexeme_type (tok_text t) = Some (tok_type t)) toks ->
  String.length (joined (toks ++ [Token EOF "" 0 0])) <= fuel ->
  exists toks' l c,
    lex_loop fuel (joined (toks ++ [Token EOF "" 0 0])) line col tokens
    = Some (tokens ++ toks' ++ [Token EOF "" l c]) /\
    map tok_type toks' = map tok_type toks /\
    map tok_text toks' = map tok_text toks.
Proof.
  induction toks as [|tok toks IH]; intros fuel line col tokens Hall Hlen.
  - exists [], line, col. destruct fuel; simpl; auto.
  - inversion Hall as [|? ? Hty Hall']; subst.
    unfold joined in *. simpl map in *.
    destruct (map tok_text (toks ++ [Token EOF "" 0 0])) as [|y ys] eqn:M.
    { destruct toks; discriminate. }
    rewrite concat_cons in *. rewrite <- M in *.
    destruct (tok_text tok) as [|ch ext] eqn:T; [discriminate|].
    rewrite !length_append in Hlen. simpl in Hlen.
    destruct fuel as [|[|fuel]]; try lia.
    simpl append. simpl lex_loop at 1.
    rewrite (relex_iteration ch ext (tok_type tok)) by assumption.
    simpl lex_loop at 1. rewrite lex_iteration_space. simpl emit.
    edestruct (IH fuel line
                 (col + String.length (String ch ext) + 1)
                 ((tokens ++ [Token (tok_type tok) (String ch ext) line col])))
      as (toks' & l & c & E & Hk & Ht); [assumption | simpl; lia |].
    exists (Token (tok_type tok) (String ch ext) line col :: toks'), l, c.
    split; [|split].
    + rewrite E. now rewrite <- app_assoc.
    + simpl. now rewrite Hk.
    + simpl. now rewrite Ht.
Qed.

Lemma joined_eof toks l c :
  joined (toks ++ [Token EOF "" l c]) = joined (toks ++ [Token EOF "" 0 0]).
Proof. unfold joined. now rewrite !map_app. Qed.

(** * Idempotence of lexing *)

(** C8 fails as stated: the tokens of ["a b"] are two identifiers, but
    their concatenated texts ["ab"] lex as one. *)
Lemma relex_concatenation_counterexample :
  exists toks toks',
    lexical_analyzer_from_text "a b" = Some toks /\
    lexical_analyzer_from_text (texts toks) = Some toks' /\
    map tok_type toks = [IDENTIFIER; IDENTIFIER; EOF] /\
    map tok_type toks' = [IDENTIFIER; EOF] /\
    map tok_type toks' <> map tok_type toks.
Proof.
  eexists. eexists. split; [reflexivity|]. split; [reflexivity|].
  split; [reflexivity|]. split; [reflexivity|]. discriminate.
Qed.

(** C8, amended. Lexing the token texts joined by single spaces yields
    tokens of the same kinds and the same texts as the original
    tokenization; and when the input contains no whitespace or newline,
    the plain concatenation of the texts is the input itself. *)
Theorem relex_joined (code : string) :
  exists toks toks',
    lexical_analyzer_from_text code = Some toks /\
    lexical_analyzer_from_text (joined toks) = Some toks' /\
    map tok_type toks' = map tok_type toks /\
    map tok_text toks' = map tok_text toks /\
    (nonblank code = true -> texts toks = code).
Proof.
  destruct (lexer_scans code) as (toks & l & c & E & Sc).
  pose proof (scans_lexemes _ _ _ _ _ _ Sc) as Hlex.
  destruct (relex_loop toks
              (String.length (joined (toks ++ [Token EOF "" 0 0]))) 1 1 []
              Hlex (le_n _)) as (toks' & l' & c' & E' & Hk & Ht).
  exists (toks ++ [Token EOF "" l c]), (toks' ++ [Token EOF "" l' c']).
  split; [exact E|]. split.
  - unfold lexical_analyzer_from_text. rewrite joined_eof. exact E'.
  - rewrite !map_app, Hk, Ht. simpl. repeat split.
    intros Hnb. rewrite texts_app. simpl. rewrite append_nil_r.
    rewrite (scans_texts _ _ _ _ _ _ Sc). now apply strip_nonblank.
Qed.

Lemma relex_joined_witness :
  exists toks,
    lexical_analyzer_from_text "x=y1;" = Some toks /\ texts toks = "x=y1;".
Proof.
  destruct (relex_joined "x=y1;") as (toks & _ & E & _ & _ & _ & H).
  exists toks. split; [exact E | exact (H eq_refl)].
Defined.

(** * The parser *)

(** ** Weakest preconditions *)

Lemma wp_ret {A} (a : A) current (Q : A -> nat -> Prop) :
  Q a current -> wp (ret a) current Q.
Proof. exact (fun H => H). Qed.

Lemma wp_bind {A B} (m : Parser A) (f : A -> Parser B) current Q :
  wp m current (fun a current' => wp (f a) current' Q) ->
  wp (bind m f) current Q.
Proof.
  unfold wp, bind. destruct (m current) as [a c'|[msg tok|]|]; auto.
Qed.

Lemma wp_mono {A} (m : Parser A) current (Q Q' : A -> nat -> Prop) :
  wp m current Q -> (forall a c, Q a c -> Q' a c) -> wp m current Q'.
Proof.
  unfold wp. destruct (m current) as [a c'|[msg tok|]|]; auto.
Qed.

Lemma wp_syntax_error {A} msg tok current (Q : A -> nat -> Prop) :
  wp (raise (SyntaxError msg tok)) current Q.
Proof. exact I. Qed.

Lemma token_type_eqb_spec a b : reflect (a = b) (token_type_eqb a b).
Proof. destruct a, b; constructor; congruence. Qed.

Lemma in_strings_In x s : in_strings x s = true <-> In x s.
Proof.
  unfold in_strings. rewrite existsb_exists. split.
  - intros (y & Hin & E). apply String.eqb_eq in E. now subst.
  - intros Hin. exists x. split; [assumption | apply String.eqb_refl].
Qed.

Section ParserSafety.

Variable tokens : list token.

(** The token list ends with an [EOF] token, as the lexer's output does. *)
Hypothesis ends_with_EOF :
  exists front eof, tokens = front ++ [eof] /\ tok_type eof = EOF.

Lemma cursor_ok_start : cursor_ok tokens 0.
Proof.
  destruct ends_with_EOF as (front & eof & E & _). split.
  - rewrite E, length_app. simpl. lia.
  - intros i t Hi. lia.
Qed.

Lemma cursor_ok_step current t :
  cursor_ok tokens current -> nth_error tokens current = Some t ->
  consumable t -> cursor_ok tokens (current + 1).
Proof.
  intros [Hlt Hprev] Ht Hc. split.
  - destruct ends_with_EOF as (front & eof & E & Heof).
    assert (current <> List.length front).
    { intros ->. rewrite E, nth_error_app2, Nat.sub_diag in Ht by lia.
      injection Ht as <-. destruct Hc as [Hc _]. contradiction. }
    rewrite E, length_app in *. simpl in *. lia.
  - intros i t' Hi Ht'. destruct (Nat.eq_dec i current) as [->|].
    + congruence.
    + apply (Hprev i); [lia | assumption].
Qed.

Lemma wp_peek current (Q : token -> nat -> Prop) :
  cursor_ok tokens current ->
  (forall t, nth_error tokens current = Some t -> Q t current) ->
  wp (peek tokens) current Q.
Proof.
  intros [Hlt _] H. unfold wp, peek.
  destruct (nth_error tokens current) as [t|] eqn:E; [auto|].
  apply nth_error_None in E. lia.
Qed.

Lemma wp_advance current (Q : unit -> nat -> Prop) :
  Q tt (current + 1) -> wp advance current Q.
Proof. exact (fun H => H). Qed.

(** [match] either raises [SyntaxError] or steps over the current token,
    which then has the expected type (and text, when one is given). *)
Lemma wp_match ty expected current (Q : token -> nat -> Prop) :
  cursor_ok tokens current ->
  (forall t, nth_error tokens current = Some t -> tok_type t = ty ->
             (forall v, expected = Some v -> v <> "" -> tok_text t = v) ->
             Q t (current + 1)) ->
  wp (match_ tokens ty expected) current Q.
Proof.
  intros Hok H. unfold match_. apply wp_bind, wp_peek; [assumption|].
  intros t Ht. destruct (token_type_eqb_spec (tok_type t) ty) as [Hty|_];
    simpl negb; cbv iota; [|apply wp_syntax_error].
  destruct (truthy expected && value_differs t expected) eqn:V;
    [apply wp_syntax_error|].
  apply wp_bind, wp_advance, wp_ret, H; auto.
  intros v -> Hv. simpl in V.
  destruct (String.eqb_spec v ""); [contradiction|].
  destruct (String.eqb_spec (tok_text t) v); [assumption|discriminate].
Qed.

(** Stepping over an operator the grammar accepts, or over a token of
    another type that is not [EOF], keeps the cursor fine. *)
Lemma step_operator current t ops :
  cursor_ok tokens current -> nth_error tokens current = Some t ->
  is_operator_in t ops = true -> incl ops grammar_operators ->
  cursor_ok tokens (current + 1).
Proof.
  intros Hok Ht Hop Hincl. apply (cursor_ok_step current t); auto.
  unfold is_operator_in in Hop. apply andb_prop in Hop as [Hty Htx].
  destruct (token_type_eqb_spec (tok_type t) OPERATOR) as [E|];
    [|discriminate].
  split; [congruence|]. intros _.
  apply in_strings_In. apply Hincl. now apply in_strings_In.
Qed.

Lemma step_other current t :
  cursor_ok tokens current -> nth_error tokens current = Some t ->
  tok_type t <> EOF -> tok_type t <> OPERATOR ->
  cursor_ok tokens (current + 1).
Proof.
  intros Hok Ht H1 H2. apply (cursor_ok_step current t); auto.
  split; [assumption | contradiction].
Qed.

(** ** Expressions *)

Ltac token_case t ty :=
  destruct (token_type_eqb_spec (tok_type t) ty);
  cbn [negb andb]; cbv iota.

(** With three units of fuel per remaining token (and up to two more),
    the expression procedures return or raise [SyntaxError]; [parse_factor],
    [parse_term] and [parse_expression] move the cursor forward when they
    return, and the cursor stays fine. *)
Lemma expression_procedures fuel :
  (forall current,
     cursor_ok tokens current -> 3 * (List.length tokens - current) <= fuel ->
     wp (parse_factor tokens fuel) current
        (fun _ c => current < c /\ cursor_ok tokens c)) /\
  (forall left current,
     cursor_ok tokens current -> 3 * (List.length tokens - current) <= fuel ->
     wp (term_loop tokens fuel left) current
        (fun _ c => current <= c /\ cursor_ok tokens c)) /\
  (forall current,
     cursor_ok tokens current -> 3 * (List.length tokens - current) + 1 <= fuel ->
     wp (parse_term tokens fuel) current
        (fun _ c => current < c /\ cursor_ok tokens c)) /\
  (forall left current,
     cursor_ok tokens current -> 3 * (List.length tokens - current) <= fuel ->
     wp (expression_loop tokens fuel left) current
        (fun _ c => current <= c /\ cursor_ok tokens c)) /\
  (forall current,
     cursor_ok tokens current -> 3 * (List.length tokens - current) + 2 <= fuel ->
     wp (parse_expression tokens fuel) current
        (fun _ c => current < c /\ cursor_ok tokens c)).
Proof.
  induction fuel as [|fuel (IHf & IHtl & IHt & IHel & IHe)].
  { repeat split; intros; match goal with H : cursor_ok tokens _ |- _ =>
      destruct H as [? _] end; lia. }
  repeat split.
  - (* parse_factor *)
    intros current Hok Hfuel. cbn [parse_factor].
    apply wp_bind, wp_peek; [assumption|]. intros t Ht.
    token_case t INTEGER.
    { apply wp_bind, wp_advance, wp_ret. split; [lia|].
      eapply step_other; eauto; congruence. }
    token_case t IDENTIFIER.
    { apply wp_bind, wp_advance, wp_ret. split; [lia|].
      eapply step_other; eauto; congruence. }
    token_case t SIGN; [|apply wp_syntax_error].
    destruct (String.eqb (tok_text t) "("); [|apply wp_syntax_error].
    assert (Hok1 : cursor_ok tokens (current + 1))
      by (eapply step_other; eauto; congruence).
    apply wp_bind, wp_match; [assumption|]. intros _ _ _ _.
    apply wp_bind. eapply wp_mono.
    { apply IHe; [assumption|]. destruct Hok1 as [? _]. lia. }
    intros expr c1 [Hlt1 Hok2].
    apply wp_bind, wp_match; [assumption|]. intros p Hp Hpt _.
    apply wp_ret. split; [lia|].
    eapply step_other; eauto; congruence.
  - (* term_loop *)
    intros left current Hok Hfuel. cbn [term_loop].
    apply wp_bind, wp_peek; [assumption|]. intros t Ht.
    destruct (is_operator_in t ["*"; "/"]) eqn:Op;
      [|apply wp_ret; split; [lia|assumption]].
    assert (Hok1 : cursor_ok tokens (current + 1)).
    { eapply step_operator; eauto. unfold grammar_operators.
      intros x [<-|[<-|[]]]; simpl; tauto. }
    apply wp_bind, wp_match; [assumption|]. intros op _ _ _.
    apply wp_bind. eapply wp_mono.
    { apply IHf; [assumption|]. destruct Hok1 as [? _]. lia. }
    intros right c1 [Hlt1 Hok2]. eapply wp_mono.
    { apply IHtl; [assumption|]. destruct Hok2 as [? _]. lia. }
    intros a c2 [Hle Hok3]. split; [lia|assumption].
  - (* parse_term *)
    intros current Hok Hfuel. cbn [parse_term].
    apply wp_bind. eapply wp_mono.
    { apply IHf; [assumption|lia]. }
    intros left c1 [Hlt1 Hok1]. eapply wp_mono.
    { apply IHtl; [assumption|]. destruct Hok1 as [? _]. lia. }
    intros a c2 [Hle Hok2]. split; [lia|assumption].
  - (* expression_loop *)
    intros left current Hok Hfuel. cbn [expression_loop].
    apply wp_bind, wp_peek; [assumption|]. intros t Ht.
    destruct (is_operator_in t ["+"; "-"; "<"; ">"; "=="]) eqn:Op;
      [|apply wp_ret; split; [lia|assumption]].
    assert (Hok1 : cursor_ok tokens (current + 1)).
    { eapply step_operator; eauto. unfold grammar_operators.
      intros x [<-|[<-|[<-|[<-|[<-|[]]]]]]; simpl; tauto. }
    apply wp_bind, wp_match; [assumption|]. intros op _ _ _.
    apply wp_bind. eapply wp_mono.
    { apply IHt; [assumption|]. destruct Hok1 as [? _]. lia. }
    intros right c1 [Hlt1 Hok2]. eapply wp_mono.
    { apply IHel; [assumption|]. destruct Hok2 as [? _]. lia. }
    intros a c2 [Hle Hok3]. split; [lia|assumption].
  - (* parse_expression *)
    intros current Hok Hfuel. cbn [parse_expression].
    apply wp_bind. eapply wp_mono.
    { apply IHt; [assumption|lia]. }
    intros left c1 [Hlt1 Hok1]. eapply wp_mono.
    { apply IHel; [assumption|]. destruct Hok1 as [? _]. lia. }
    intros a c2 [Hle Hok2]. split; [lia|assumption].
Qed.

(** ** Statements *)

Ltac step_over :=
  match goal with
  | Ht : nth_error tokens ?c = Some ?t |- cursor_ok tokens (?c + 1) =>
      apply (cursor_ok_step c t); [assumption | assumption |];
      split; [congruence | try congruence]
  end.

Lemma equals_sign_in_grammar t :
  tok_text t = "=" -> in_strings (tok_text t) grammar_operators = true.
Proof. now intros ->. Qed.

Lemma parse_declaration_spec fuel current :
  cursor_ok tokens current -> 3 * (List.length tokens - current) <= fuel ->
  wp (parse_declaration tokens fuel) current
     (fun _ c => current < c /\ cursor_ok tokens c).
Proof.
  intros Hok Hfuel. unfold parse_declaration.
  apply wp_bind, wp_match; [assumption|]. intros type_tok Ht1 Hty1 _.
  assert (Hok1 : cursor_ok tokens (current + 1)) by step_over.
  apply wp_bind, wp_match; [assumption|]. intros id_tok Ht2 Hty2 _.
  assert (Hok2 : cursor_ok tokens (current + 1 + 1)) by step_over.
  apply wp_bind, wp_peek; [assumption|]. intros tok Ht3.
  destruct (token_type_eqb (tok_type tok) OPERATOR
            && String.eqb (tok_text tok) "=").
  - apply wp_bind, wp_match; [assumption|]. intros eq Ht4 Hty4 Hv4.
    assert (Hok3 : cursor_ok tokens (current + 1 + 1 + 1)).
    { step_over. intros _. apply equals_sign_in_grammar.
      apply (Hv4 "="); [reflexivity | discriminate]. }
    apply wp_bind. eapply wp_mono.
    { apply expression_procedures; [assumption|].
      destruct Hok3 as [? _]. lia. }
    intros expr c1 [Hlt1 Hok4].
    apply wp_bind, wp_match; [assumption|]. intros semi Ht5 Hty5 _.
    apply wp_ret. split; [lia | step_over].
  - apply wp_bind, wp_match; [assumption|]. intros semi Ht5 Hty5 _.
    apply wp_ret. split; [lia | step_over].
Qed.

Lemma parse_assignment_spec fuel current :
  cursor_ok tokens current -> 3 * (List.length tokens - current) <= fuel ->
  wp (parse_assignment tokens fuel) current
     (fun _ c => current < c /\ cursor_ok tokens c).
Proof.
  intros Hok Hfuel. unfold parse_assignment.
  apply wp_bind, wp_match; [assumption|]. intros id_tok Ht1 Hty1 _.
  assert (Hok1 : cursor_ok tokens (current + 1)) by step_over.
  apply wp_bind, wp_match; [assumption|]. intros eq Ht2 Hty2 Hv2.
  assert (Hok2 : cursor_ok tokens (current + 1 + 1)).
  { step_over. intros _. apply equals_sign_in_grammar.
    apply (Hv2 "="); [reflexivity | discriminate]. }
  apply wp_bind. eapply wp_mono.
  { apply expression_procedures; [assumption|].
    destruct Hok2 as [? _]. lia. }
  intros expr c1 [Hlt1 Hok3].
  apply wp_bind, wp_match; [assumption|]. intros semi Ht3 Hty3 _.
  apply wp_ret. split; [lia | step_over].
Qed.

Lemma statement_procedures fuel :
  (forall current,
     cursor_ok tokens current -> 3 * (List.length tokens - current) + 1 <= fuel ->
     wp (parse_statement tokens fuel) current
        (fun _ c => current < c /\ cursor_ok tokens c)) /\
  (forall current,
     cursor_ok tokens current -> 3 * (List.length tokens - current) <= fuel ->
     wp (parse_if tokens fuel) current
        (fun _ c => current < c /\ cursor_ok tokens c)).
Proof.
  induction fuel as [|fuel (IHs & IHi)].
  { split; intros; match goal with H : cursor_ok tokens _ |- _ =>
      destruct H as [? _] end; lia. }
  split.
  - (* parse_statement *)
    intros current Hok Hfuel. cbn [parse_statement].
    apply wp_bind, wp_peek; [assumption|]. intros tok Ht.
    destruct (token_type_eqb (tok_type tok) KEYWORD
              && in_strings (tok_text tok) ["int"; "float"; "double"]).
    { apply parse_declaration_spec; [assumption|lia]. }
    destruct (token_type_eqb (tok_type tok) KEYWORD
              && String.eqb (tok_text tok) "if").
    { apply IHi; [assumption|lia]. }
    destruct (token_type_eqb (tok_type tok) IDENTIFIER).
    { apply parse_assignment_spec; [assumption|lia]. }
    apply wp_syntax_error.
  - (* parse_if *)
    intros current Hok Hfuel. cbn [parse_if].
    apply wp_bind, wp_match; [assumption|]. intros if_tok Ht1 Hty1 _.
    assert (Hok1 : cursor_ok tokens (current + 1)) by step_over.
    apply wp_bind, wp_match; [assumption|]. intros paren Ht2 Hty2 _.
    assert (Hok2 : cursor_ok tokens (current + 1 + 1)) by step_over.
    apply wp_bind. eapply wp_mono.
    { apply expression_procedures; [assumption|].
      destruct Hok2 as [? _]. lia. }
    intros condition c1 [Hlt1 Hok3].
    apply wp_bind, wp_match; [assumption|]. intros close Ht3 Hty3 _.
    assert (Hok4 : cursor_ok tokens (c1 + 1)) by step_over.
    apply wp_bind. eapply wp_mono.
    { apply IHs; [assumption|]. destruct Hok4 as [? _]. lia. }
    intros stmt c2 [Hlt2 Hok5]. apply wp_ret. split; [lia|assumption].
Qed.

(** ** Programs *)

(** The loop of [parse_program] stops only on an [EOF] token. *)
Lemma program_loop_spec fuel : forall statements current,
  cursor_ok tokens current -> 3 * (List.length tokens - current) + 2 <= fuel ->
  wp (program_loop tokens fuel statements) current
     (fun _ c => cursor_ok tokens c /\
                 exists t, nth_error tokens c = Some t /\ tok_type t = EOF).
Proof.
  induction fuel as [|fuel IH]; intros statements current Hok Hfuel.
  { destruct Hok as [? _]. lia. }
  cbn [program_loop].
  apply wp_bind, wp_peek; [assumption|]. intros tok Ht.
  token_case tok EOF.
  { apply wp_ret. eauto. }
  apply wp_bind. eapply wp_mono.
  { apply statement_procedures; [assumption|lia]. }
  intros stmt c1 [Hlt1 Hok1]. apply IH; [assumption|].
  destruct Hok1 as [? _]. lia.
Qed.

Lemma parse_program_spec :
  wp (parse_program tokens (enough_fuel tokens)) 0
     (fun _ c => cursor_ok tokens c /\
                 exists t, nth_error tokens c = Some t /\ tok_type t = EOF).
Proof.
  apply program_loop_spec; [apply cursor_ok_start|].
  unfold enough_fuel. lia.
Qed.

End ParserSafety.

(** When [parse] returns on a token list whose only [EOF] is the last
    token, the cursor is on that token and every token before it is one
    the grammar consumes. *)
Lemma parse_returns_consumed tokens front eof program current :
  tokens = front ++ [eof] -> tok_type eof = EOF ->
  Forall (fun t => tok_type t <> EOF) front ->
  parse tokens = Return program current ->
  current = List.length front /\ Forall consumable front.
Proof.
  intros E Heof Hfront Hret.
  assert (Hend : exists f e, tokens = f ++ [e] /\ tok_type e = EOF)
    by eauto.
  pose proof (parse_program_spec tokens Hend) as Hwp.
  unfold wp in Hwp. fold (parse tokens) in Hwp. rewrite Hret in Hwp.
  destruct Hwp as ([Hlt Hprev] & t & Ht & Hty).
  assert (Hcur : current = List.length front).
  { rewrite E, length_app in Hlt. simpl in Hlt.
    destruct (Nat.lt_ge_cases current (List.length front)) as [Hin|]; [|lia].
    exfalso. rewrite E, nth_error_app1 in Ht by assumption.
    apply nth_error_In in Ht. rewrite Forall_forall in Hfront.
    exact (Hfront t Ht Hty). }
  split; [assumption|]. apply Forall_forall. intros x Hx.
  apply In_nth_error in Hx as (i & Hi).
  apply (Hprev i).
  - rewrite Hcur. apply nth_error_Some. congruence.
  - rewrite E, nth_error_app1; [assumption|].
    apply nth_error_Some. congruence.
Qed.

(** * The parser's properties *)

(** C1. ["int x = 1 + 2 * 3;"] parses to a single declaration whose
    initializer is the whole expression, the product nested under the
    sum. *)
Theorem declaration_with_precedence :
  run_compiler "int x = 1 + 2 * 3;"
  = Some (Return
            (Program
               [Declaration "int" "x"
                  (Some (BinaryOp "+" (Number "1")
                           (BinaryOp "*" (Number "2") (Number "3"))))])
            9).
Proof. vm_compute. reflexivity. Qed.

(** C3. ["int x 5;"] raises [SyntaxError] from [match], reporting the
    [INTEGER] token ["5"] at line 1, column 7. *)
Theorem declaration_without_separator :
  run_compiler "int x 5;"
  = Some (Raise (SyntaxError Unexpected_token (Token INTEGER "5" 1 7))).
Proof. vm_compute. reflexivity. Qed.



(** * Further properties of the lexer *)

(** ** The text of each kind of token *)

(** What [next_state] tested to leave the start state. *)
Lemma next_state_start_inv ch :
  (next_state 0 ch = 1%Z -> isspace ch = false /\ word_start ch = true) /\
  (next_state 0 ch = 3%Z ->
   isspace ch = false /\ word_start ch = false /\ isdigit ch = true) /\
  (next_state 0 ch = 6%Z ->
   isspace ch = false /\ word_start ch = false /\ isdigit ch = false /\
   in_chars ch OPERATORS = true) /\
  (next_state 0 ch = 7%Z ->
   isspace ch = false /\ word_start ch = false /\ isdigit ch = false /\
   in_chars ch OPERATORS = false /\ in_chars ch SIGNS = true) /\
  (next_state 0 ch = 8%Z ->
   isspace ch = false /\ word_start ch = false /\ isdigit ch = false /\
   in_chars ch OPERATORS = false /\ in_chars ch SIGNS = false).
Proof.
  unfold next_state, word_start. change (0 =? 0)%Z with true. cbv iota.
  destruct (isspace ch), (isalpha ch || Ascii.eqb ch underscore),
    (isdigit ch), (in_chars ch OPERATORS), (in_chars ch SIGNS);
    repeat split; try reflexivity; discriminate.
Qed.

Lemma accepts_word ext :
  all_chars (accepts 1) ext = true -> all_chars word_char ext = true.
Proof.
  induction ext as [|c ext IH]; simpl; [reflexivity|].
  intros H. apply andb_prop in H as [Hc Hr]. rewrite (IH Hr), andb_true_r.
  unfold accepts, next_state in Hc. simpl in Hc. unfold word_char.
  destruct (isalnum c || Ascii.eqb c underscore); [reflexivity|discriminate].
Qed.

Lemma accepts_digits ext :
  all_chars (accepts 3) ext = true -> all_chars isdigit ext = true.
Proof.
  induction ext as [|c ext IH]; simpl; [reflexivity|].
  intros H. apply andb_prop in H as [Hc Hr]. rewrite (IH Hr), andb_true_r.
  unfold accepts, next_state in Hc. simpl in Hc.
  destruct (isdigit c); [reflexivity|discriminate].
Qed.

Lemma lexeme_class text ty :
  lexeme_type text = Some ty -> class_ok (Token ty text 0 0).
Proof.
  destruct text as [|ch ext]; [discriminate|].
  unfold lexeme_type, class_ok. cbn [tok_type tok_text].
  destruct (next_state_start_inv ch) as (H1 & H3 & H6 & H7 & H8).
  destruct (next_state_start ch) as [[E _] | [_ E]].
  { rewrite E. discriminate. }
  destruct E as [E|[E|[E|[E|E]]]]; rewrite E; simpl Z.eqb; cbv iota.
  - destruct (all_chars (accepts 1) ext) eqn:A; [|discriminate].
    destruct (in_strings (String ch ext) KEYWORDS) eqn:K; intros [= <-].
    + now apply in_strings_In.
    + split.
      * intros Hin. apply in_strings_In in Hin. congruence.
      * exists ch, ext. destruct (H1 E). auto using accepts_word.
  - destruct (all_chars (accepts 3) ext) eqn:A; [|discriminate].
    intros [= <-]. split; [discriminate|]. simpl.
    destruct (H3 E) as (_ & _ & ->). simpl. auto using accepts_digits.
  - destruct ext as [|c ext].
    + intros [= <-]. left. exists ch. destruct (H6 E) as (_ & _ & _ & ?).
      auto.
    + destruct (in_strings _ _) eqn:D; [|discriminate]. intros [= <-].
      right. now apply in_strings_In.
  - destruct ext; [|discriminate]. intros [= <-]. exists ch.
    destruct (H7 E) as (_ & _ & _ & _ & ?). auto.
  - destruct ext; [|discriminate]. intros [= <-]. exists ch.
    destruct (H8 E) as (? & ? & ? & ? & ?). auto 6.
Qed.

Lemma class_ok_positions ty text l c :
  class_ok (Token ty text 0 0) -> class_ok (Token ty text l c).
Proof. exact (fun H => H). Qed.

Lemma lexer_classes (code : string) :
  exists toks,
    lexical_analyzer_from_text code = Some toks /\ Forall class_ok toks.
Proof.
  destruct (lexer_scans code) as (toks & l & c & E & Sc).
  exists (toks ++ [Token EOF "" l c]). split; [exact E|].
  apply Forall_app. split.
  - apply scans_lexemes in Sc. eapply Forall_impl; [|exact Sc].
    intros [ty text tl tc] H. cbn [tok_text tok_type] in H.
    apply (class_ok_positions ty text tl tc). now apply lexeme_class.
  - constructor; [reflexivity | constructor].
Qed.

(** X1. In every output of the lexer the text of a token follows from its
    type: keywords are members of [KEYWORDS]; identifiers are not, and are
    a letter or underscore followed by alphanumerics and underscores;
    integers are non-empty runs of digits; operators are one operator
    character or a member of [DOUBLE_OPERATORS]; signs are one sign
    character; unknown tokens are one character of no class; [EOF] has
    the empty text. *)
Theorem token_classes (code : string) :
  exists toks,
    lexical_analyzer_from_text code = Some toks /\ Forall class_ok toks.
Proof. exact (lexer_classes code). Qed.

Lemma digit_not_keyword ch ext :
  isdigit ch = true -> ~ In (String ch ext) KEYWORDS.
Proof.
  intros Hd Hin. simpl in Hin.
  destruct Hin as [E|[E|[E|[E|[E|[]]]]]]; injection E as <- _;
    discriminate.
Qed.

(** X2. A token of the lexer's output is a [KEYWORD] exactly when its
    whole text is one of the five keywords. *)
Theorem keyword_iff_reserved (code : string) :
  exists toks,
    lexical_analyzer_from_text code = Some toks /\
    Forall (fun t => tok_type t = KEYWORD <-> In (tok_text t) KEYWORDS) toks.
Proof.
  destruct (lexer_classes code) as (toks & E & Hc).
  exists toks. split; [exact E|].
  eapply Forall_impl; [|exact Hc]. intros [ty text tl tc].
  unfold class_ok. cbn [tok_type tok_text].
  destruct ty; intros H; (split; [try discriminate; auto|]); intros Hin;
    try reflexivity; exfalso.
  - tauto.
  - destruct H as [Hne Hd]. destruct text as [|ch ext]; [contradiction|].
    simpl in Hd. apply andb_prop in Hd as [Hd _].
    exact (digit_not_keyword ch ext Hd Hin).
  - destruct H as [(ch & -> & _) | Hd].
    + simpl in Hin. intuition discriminate.
    + simpl in Hin, Hd. intuition congruence.
  - destruct H as (ch & -> & _). simpl in Hin. intuition discriminate.
  - destruct H as (ch & -> & _). simpl in Hin. intuition discriminate.
  - subst text. simpl in Hin. intuition discriminate.
Qed.

(** ** Longest match *)

(** The inner loop stops at the end of the input or at a character the
    state does not accept. *)
Lemma extend_stop code : forall state buffer col state' buffer' code' col',
  state <> 0%Z ->
  extend state buffer code col = (state', buffer', code', col') ->
  match code' with
  | "" => True
  | String c _ => next_state state c = (-1)%Z
  end.
Proof.
  induction code as [|ch code IH];
    intros state buffer col st' buf' code' col' Hs.
  - simpl. now intros [= <- <- <- <-].
  - simpl. destruct (next_state_continue state ch Hs) as [E | (E & _ & _)].
    + rewrite E. simpl. now intros [= <- <- <- <-].
    + rewrite E. destruct (Z.eqb_spec state (-1)).
      * intros [= <- <- <- <-]. congruence.
      * apply IH. assumption.
Qed.

Lemma next_state_word c : next_state 1 c = (-1)%Z -> word_char c = false.
Proof.
  unfold next_state, word_char. simpl.
  destruct (isalnum c || Ascii.eqb c underscore); [discriminate|reflexivity].
Qed.

Lemma next_state_digit c : next_state 3 c = (-1)%Z -> isdigit c = false.
Proof.
  unfold next_state. simpl. destruct (isdigit c); [discriminate|reflexivity].
Qed.

(** A token emitted by an iteration could not have been extended by the
    character the iteration stopped at. *)
Lemma lex_iteration_stops ch rest line col tok code' line' col' :
  lex_iteration ch rest line col = (Some tok, code', line', col') ->
  stops_after tok code'.
Proof.
  unfold lex_iteration.
  destruct (Ascii.eqb ch newline); [discriminate|].
  destruct (next_state_start ch) as [[E Hsp] | [Hsp E]].
  { rewrite E. discriminate. }
  assert (H0 : next_state 0 ch <> 0%Z) by lia.
  destruct (Z.eqb_spec (next_state 0 ch) 0) as [|_]; [contradiction|].
  destruct (extend (next_state 0 ch) (String ch "") rest (col + 1))
    as [[[state buffer] code] col1] eqn:X.
  pose proof (extend_stop _ _ _ _ _ _ _ _ H0 X) as Hstop.
  apply extend_spec in X; [|lia..].
  destruct X as (ext & -> & -> & -> & Hacc & -> & Hext).
  destruct E as [E|[E|[E|[E|E]]]]; rewrite E in *; simpl Z.eqb; cbv iota.
  - intros [= <- <- <- <-]. unfold stops_after.
    destruct code as [|c code]; [exact I|]. cbn [tok_type].
    match goal with
    | |- context [if ?b then KEYWORD else IDENTIFIER] => destruct b
    end; now apply next_state_word.
  - intros [= <- <- <- <-]. unfold stops_after.
    destruct code as [|c code]; [exact I|]. cbn [tok_type].
    now apply next_state_digit.
  - rewrite (Hext ltac:(lia) ltac:(lia)) in *. simpl append.
    destruct code as [|c code].
    + intros [= <- <- <- <-]. exact I.
    + destruct (in_strings (push (String ch "") c) DOUBLE_OPERATORS) eqn:D.
      * intros [= <- <- <- <-]. unfold stops_after.
        destruct code as [|c' code]; [exact I|]. cbn [tok_type tok_text].
        unfold push. simpl. discriminate.
      * intros [= <- <- <- <-]. unfold stops_after. cbn [tok_type tok_text].
        intros _. exact D.
  - intros [= <- <- <- <-]. unfold stops_after.
    destruct code; exact I.
  - intros [= <- <- <- <-]. unfold stops_after.
    destruct code; exact I.
Qed.

Lemma lex_loop_munches fuel : forall code line col tokens,
  String.length code <= fuel ->
  exists toks l c,
    lex_loop fuel code line col tokens
    = Some (tokens ++ toks ++ [Token EOF "" l c]) /\
    munches code line col toks l c.
Proof.
  induction fuel as [|fuel IH]; intros code line col tokens Hlen.
  - destruct code; [|simpl in Hlen; lia].
    exists [], line, col. split; [reflexivity | constructor].
  - destruct code as [|ch rest].
    { exists [], line, col. split; [reflexivity | constructor]. }
    simpl lex_loop.
    destruct (lex_iteration ch rest line col) as [[[t code'] line'] col']
      eqn:It.
    pose proof It as Hstop.
    apply lex_iteration_spec in It. destruct t as [tok|].
    + apply lex_iteration_stops in Hstop.
      destruct It as (Hcode & Hty & Hl & Hc & -> & ->).
      pose proof (lexeme_nonempty _ _ Hty) as Hne.
      assert (Hlen' : String.length code' <= fuel).
      { apply (f_equal String.length) in Hcode.
        rewrite length_append in Hcode. simpl in Hcode, Hlen. lia. }
      destruct (IH code' line (col + String.length (tok_text tok))
                  (emit tokens (Some tok)) Hlen') as (toks & l & c & E & Sc).
      exists (tok :: toks), l, c. split.
      * rewrite E. simpl emit. now rewrite <- app_assoc.
      * rewrite Hcode. now constructor.
    + clear Hstop.
      destruct It as (-> & [(-> & -> & ->) | (Hnl & Hsp & -> & ->)]);
        simpl in Hlen;
        (edestruct IH as (toks & l & c & E & Sc); [|
           exists toks, l, c; split; [exact E|]]); try lia.
      * now constructor.
      * now constructor.
Qed.

Lemma munches_scans code line col toks l c :
  munches code line col toks l c -> scans code line col toks l c.
Proof. induction 1; constructor; auto. Qed.

Lemma lexer_munches code :
  exists toks l c,
    lexical_analyzer_from_text code = Some (toks ++ [Token EOF "" l c]) /\
    munches code 1 1 toks l c.
Proof.
  unfold lexical_analyzer_from_text.
  destruct (lex_loop_munches (String.length code) code 1 1 [] (le_n _))
    as (toks & l & c & E & Sc).
  exists toks, l, c. now split.
Qed.

(** A first token recorded at the very position the scan starts from is
    cut from the head of the input. *)
Lemma munches_head code line col b toks l c :
  munches code line col (b :: toks) l c ->
  tok_line b = line -> tok_col b = col ->
  exists rest, code = (tok_text b ++ rest)%string.
Proof.
  intros M. inversion M as [| rest ? ? ? ? ? M' | ch rest ? ? ? ? ? _ _ M'
                            | ? rest ? ? ? ? ? _ _ _ _ _]; subst.
  - apply munches_scans, scans_ordered in M' as (_ & Hf & _).
    inversion Hf as [|? ? [Hp | [Hp _]] _]; subst; lia.
  - apply munches_scans, scans_ordered in M' as (_ & Hf & _).
    inversion Hf as [|? ? [Hp | [_ Hp]] _]; subst; lia.
  - eauto.
Qed.

Lemma stops_after_head tok text rest :
  text <> "" -> stops_after tok (text ++ rest) -> stops_after tok text.
Proof. destruct text; [contradiction | auto]. Qed.

Lemma munches_consecutive code line col toks l c :
  munches code line col toks l c ->
  consecutive munch (toks ++ [Token EOF "" l c]).
Proof.
  induction 1 as [line col
                  | rest line col toks l c _ IH
                  | ch rest line col toks l c _ _ _ IH
                  | tok rest line col toks l c Hty Hstop Hl Hc M IH];
    try assumption; [exact I|].
  simpl. destruct toks as [|b toks]; simpl in *.
  - split; [|exact I]. intros _. exact I.
  - split; [|assumption]. intros [Hbl Hbc].
    destruct (munches_head _ _ _ _ _ _ _ M) as (r & ->); [congruence..|].
    inversion M as [| | | ? ? ? ? ? ? ? Hb _ _ _ _]; subst;
      try (apply stops_after_head in Hstop; [assumption|]);
      apply munches_scans, scans_lexemes in M; inversion M as [|? ? Hx _];
      subst; intros Hempty; rewrite Hempty in Hx; discriminate.
Qed.

(** X3. Longest match: in every output of the lexer, when a token starts
    right where the previous one ends, its first character is one that
    could not extend the previous token (not alphanumeric or underscore
    after a keyword or identifier, not a digit after an integer, not the
    second character of a two-character operator after a one-character
    operator). *)
Theorem adjacent_tokens_cannot_merge (code : string) :
  exists toks,
    lexical_analyzer_from_text code = Some toks /\ consecutive munch toks.
Proof.
  destruct (lexer_munches code) as (toks & l & c & E & M).
  exists (toks ++ [Token EOF "" l c]). split; [exact E|].
  exact (munches_consecutive _ _ _ _ _ _ M).
Qed.

(** ** Spacing *)

Lemma scans_apart code line col toks l c :
  scans code line col toks l c ->
  consecutive apart (toks ++ [Token EOF "" l c]).
Proof.
  induction 1 as [line col
                  | rest line col toks l c _ IH
                  | ch rest line col toks l c _ _ _ IH
                  | tok rest line col toks l c _ Hl Hc Sc IH];
    try assumption; [exact I|].
  apply scans_ordered in Sc as (Hend & Hall & _).
  simpl. destruct toks as [|b toks]; simpl in *.
  - split; [|exact I]. unfold apart, pos_le in *. simpl. lia.
  - split; [|assumption]. inversion Hall as [|? ? Hb _]; subst.
    unfold apart, pos_le in *. lia.
Qed.

(** X4. Tokens do not overlap: each token of the output starts on a later
    line than the one before it, or on the same line at or after the
    column where that one ends. *)
Theorem tokens_do_not_overlap (code : string) :
  exists toks,
    lexical_analyzer_from_text code = Some toks /\ consecutive apart toks.
Proof.
  destruct (lexer_scans code) as (toks & l & c & E & Sc).
  exists (toks ++ [Token EOF "" l c]). split; [exact E|].
  exact (scans_apart _ _ _ _ _ _ Sc).
Qed.

(** ** The position of [EOF] *)

Lemma scans_end_position code line col toks l c :
  scans code line col toks l c ->
  forall before line_prefix,
    line_start before -> newlines line_prefix = 0 ->
    line = 1 + newlines before -> col = 1 + String.length line_prefix ->
    exists before' last,
      (before ++ line_prefix ++ code)%string = (before' ++ last)%string /\
      line_start before' /\ newlines last = 0 /\
      l = 1 + newlines before' /\ c = 1 + String.length last.
Proof.
  induction 1 as [line col
                  | rest line col toks l c _ IH
                  | ch rest line col toks l c Hnl _ _ IH
                  | tok rest line col toks l c Hty Hl Hc _ IH];
    intros before lp Hb Hlp Hline Hcol.
  - exists before, lp. rewrite append_nil_r. auto.
  - specialize (IH (before ++ lp ++ String newline "")%string "").
    simpl in IH. rewrite !append_assoc in IH. simpl in IH. apply IH.
    + right. exists (before ++ lp)%string. now rewrite append_assoc.
    + reflexivity.
    + rewrite !newlines_append. simpl. lia.
    + reflexivity.
  - specialize (IH before (lp ++ String ch "")%string).
    rewrite !append_assoc in IH. simpl in IH. apply IH; auto.
    + rewrite newlines_append. simpl.
      destruct (Ascii.eqb_spec ch newline); [contradiction|lia].
    + rewrite length_append. simpl. lia.
  - specialize (IH before (lp ++ tok_text tok)%string).
    rewrite !append_assoc in IH. apply IH; auto.
    + rewrite newlines_append, Hlp. simpl. apply newlines_nonblank.
      exact (lexeme_type_nonblank _ _ Hty).
    + rewrite length_append. lia.
Qed.

(** X5. The [EOF] token carries the position just past the end of the
    input: its line is one more than the number of newlines of the whole
    input, and its column one more than the length of the input's last
    line. *)
Theorem eof_at_end_of_input (code : string) :
  exists toks l c before last,
    lexical_analyzer_from_text code = Some (toks ++ [Token EOF "" l c]) /\
    code = (before ++ last)%string /\
    line_start before /\ newlines last = 0 /\
    l = 1 + newlines code /\ c = 1 + String.length last.
Proof.
  destruct (lexer_scans code) as (toks & l & c & E & Sc).
  destruct (scans_end_position _ _ _ _ _ _ Sc "" "")
    as (before & last & Hcode & Hb & Hn & Hl & Hc);
    try reflexivity; [now left|].
  simpl in Hcode. exists toks, l, c, before, last.
  repeat split; auto. rewrite Hcode, newlines_append, Hn. lia.
Qed.

(** ** Lexing line by line *)

(** Fuel beyond one unit per character makes no difference. *)
Lemma lex_loop_fuel fuel : forall fuel' code line col tokens,
  String.length code <= fuel -> String.length code <= fuel' ->
  lex_loop fuel code line col tokens = lex_loop fuel' code line col tokens.
Proof.
  induction fuel as [|fuel IH]; intros fuel' code line col tokens H1 H2.
  - destruct code; [|simpl in H1; lia]. now destruct fuel'.
  - destruct code as [|ch rest]; [now destruct fuel'|].
    destruct fuel' as [|fuel']; [simpl in H2; lia|].
    simpl lex_loop.
    destruct (lex_iteration ch rest line col) as [[[t code'] line'] col']
      eqn:It.
    apply IH; simpl in H1, H2; apply lex_iteration_spec in It;
      destruct t as [tok|].
    + destruct It as (Hcode & Hty & _).
      apply lexeme_nonempty in Hty. apply (f_equal String.length) in Hcode.
      rewrite length_append in Hcode. simpl in Hcode. lia.
    + destruct It as (-> & _). lia.
    + destruct It as (Hcode & Hty & _).
      apply lexeme_nonempty in Hty. apply (f_equal String.length) in Hcode.
      rewrite length_append in Hcode. simpl in Hcode. lia.
    + destruct It as (-> & _). lia.
Qed.

Lemma next_state_newline state :
  state <> 0%Z -> next_state state newline = (-1)%Z.
Proof.
  intros Hs. destruct (next_state_continue state newline Hs)
    as [E | (_ & _ & Hb)]; [assumption | discriminate].
Qed.

(** The inner loop never reads past a newline. *)
Lemma extend_before_newline code : forall state buffer col after,
  state <> 0%Z ->
  extend state buffer (code ++ String newline after) col
  = let '(state', buffer', code', col') := extend state buffer code col in
    (state', buffer', (code' ++ String newline after)%string, col').
Proof.
  induction code as [|ch code IH]; intros state buffer col after Hs.
  - simpl. now rewrite (next_state_newline state Hs).
  - simpl. destruct (next_state_continue state ch Hs) as [E | (E & _ & _)].
    + rewrite E. reflexivity.
    + rewrite E. destruct (Z.eqb_spec state (-1)); [reflexivity|].
      now apply IH.
Qed.

Lemma not_double_with_newline buffer :
  in_strings (push buffer newline) DOUBLE_OPERATORS = false.
Proof.
  destruct (in_strings _ _) eqn:D; [|reflexivity].
  apply double_operator_inv in D as (x & D). unfold push in D.
  destruct buffer as [|a [|b buffer]]; try discriminate.
  destruct buffer; discriminate.
Qed.

(** Neither does an iteration of the scanner. *)
Lemma lex_iteration_before_newline ch rest line col after :
  lex_iteration ch (rest ++ String newline after) line col
  = let '(t, code', line', col') := lex_iteration ch rest line col in
    (t, (code' ++ String newline after)%string, line', col').
Proof.
  unfold lex_iteration.
  destruct (Ascii.eqb ch newline); [reflexivity|].
  destruct (Z.eqb_spec (next_state 0 ch) 0) as [|H0]; [reflexivity|].
  rewrite extend_before_newline by assumption.
  destruct (extend (next_state 0 ch) (String ch "") rest (col + 1))
    as [[[state buffer] code] col1].
  destruct (state =? 1)%Z; [reflexivity|].
  destruct (state =? 3)%Z; [reflexivity|].
  destruct (state =? 6)%Z; [|destruct (state =? 7)%Z; reflexivity].
  destruct code as [|c code].
  - simpl append. cbv beta iota zeta.
    now rewrite not_double_with_newline.
  - simpl append. cbv beta iota zeta.
    destruct (in_strings (push buffer c) DOUBLE_OPERATORS); reflexivity.
Qed.

(** Lexing [code ++ newline ++ after] first lexes [code], from which it
    goes on to lex [after] from the start of the next line. *)
Lemma lex_loop_before_newline fuel : forall code line col tokens after g,
  String.length code <= fuel -> String.length after <= g ->
  exists toks l c,
    lex_loop fuel code line col tokens
    = Some (tokens ++ toks ++ [Token EOF "" l c]) /\
    lex_loop (fuel + S g) (code ++ String newline after) line col tokens
    = lex_loop g after (l + 1) 1 (tokens ++ toks).
Proof.
  induction fuel as [|fuel IH]; intros code line col tokens after g H1 H2.
  - destruct code; [|simpl in H1; lia].
    exists [], line, col. split; [reflexivity|].
    simpl. now rewrite app_nil_r.
  - destruct code as [|ch rest].
    { exists [], line, col. split; [reflexivity|].
      rewrite app_nil_r. simpl.
      apply lex_loop_fuel; lia. }
    simpl in H1. simpl lex_loop. rewrite lex_iteration_before_newline.
    destruct (lex_iteration ch rest line col) as [[[t code'] line'] col']
      eqn:It.
    assert (Hlen : String.length code' <= fuel).
    { apply lex_iteration_spec in It. destruct t as [tok|].
      - destruct It as (Hcode & Hty & _).
        apply lexeme_nonempty in Hty. apply (f_equal String.length) in Hcode.
        rewrite length_append in Hcode. simpl in Hcode. lia.
      - destruct It as (-> & _). lia. }
    destruct (IH code' line' col' (emit tokens t) after g Hlen H2)
      as (toks & l & c & E & E').
    rewrite E, E'. destruct t as [tok|]; simpl emit.
    + exists (tok :: toks), l, c. now rewrite <- !app_assoc.
    + exists toks, l, c. auto.
Qed.

Lemma lex_iteration_shift ch rest line col k :
  lex_iteration ch rest (line + k) col
  = let '(t, code', line', col') := lex_iteration ch rest line col in
    (option_map (shift_line k) t, code', line' + k, col').
Proof.
  unfold lex_iteration.
  destruct (Ascii.eqb ch newline).
  { simpl. now replace (line + k + 1) with (line + 1 + k) by lia. }
  destruct (next_state 0 ch =? 0)%Z; [reflexivity|].
  destruct (extend (next_state 0 ch) (String ch "") rest (col + 1))
    as [[[state buffer] code] col1].
  destruct (state =? 1)%Z; [reflexivity|].
  destruct (state =? 3)%Z; [reflexivity|].
  destruct (state =? 6)%Z; [|destruct (state =? 7)%Z; reflexivity].
  destruct code as [|c code]; [reflexivity|].
  destruct (in_strings (push buffer c) DOUBLE_OPERATORS); reflexivity.
Qed.

(** Starting [k] lines further down moves every token [k] lines down and
    changes nothing else. *)
Lemma lex_loop_shift fuel k : forall code line col tokens result front,
  lex_loop fuel code line col tokens = Some result ->
  lex_loop fuel code (line + k) col (front ++ map (shift_line k) tokens)
  = Some (front ++ map (shift_line k) result).
Proof.
  induction fuel as [|fuel IH]; intros code line col tokens result front.
  - destruct code; [|discriminate]. simpl. intros [= <-].
    now rewrite map_app, app_assoc.
  - destruct code as [|ch rest].
    { simpl. intros [= <-]. now rewrite map_app, app_assoc. }
    simpl lex_loop. rewrite lex_iteration_shift.
    destruct (lex_iteration ch rest line col) as [[[t code'] line'] col'].
    intros H. apply (IH _ _ _ _ _ front) in H. rewrite <- H.
    destruct t as [tok|]; simpl; [|reflexivity].
    now rewrite map_app, app_assoc.
Qed.

(** X6. Lexing is line by line: the tokens of [code1], a newline and
    [code2] are the tokens of [code1] without its [EOF], followed by the
    tokens of [code2] moved down by the number of lines of [code1]. *)
Theorem lexing_line_by_line (code1 code2 : string) :
  exists toks1 l1 c1 toks2,
    lexical_analyzer_from_text code1 = Some (toks1 ++ [Token EOF "" l1 c1]) /\
    lexical_analyzer_from_text code2 = Some toks2 /\
    l1 = 1 + newlines code1 /\
    lexical_analyzer_from_text (code1 ++ String newline code2)
    = Some (toks1 ++ map (shift_line l1) toks2).
Proof.
  unfold lexical_analyzer_from_text.
  destruct (lex_loop_before_newline (String.length code1) code1 1 1 []
              code2 (String.length code2) (le_n _) (le_n _))
    as (toks1 & l1 & c1 & E1 & E12).
  destruct (lex_loop_scans (String.length code2) code2 1 1 [] (le_n _))
    as (toks2 & l2 & c2 & E2 & _).
  destruct (lex_loop_scans (String.length code1) code1 1 1 [] (le_n _))
    as (toks1' & l1' & c1' & E1' & Sc1).
  simpl in E1, E1', E2, E12. rewrite E1 in E1'.
  injection E1' as E1'. apply app_inj_tail in E1' as [<- [= <- <-]].
  exists toks1, l1, c1, (toks2 ++ [Token EOF "" l2 c2]).
  split; [exact E1|]. split; [exact E2|].
  split; [rewrite (scans_final_line _ _ _ _ _ _ Sc1); reflexivity|].
  rewrite length_append. simpl String.length. rewrite E12.
  replace (l1 + 1) with (1 + l1) by lia.
  pose proof (lex_loop_shift _ l1 code2 1 1 [] _ toks1 E2) as E.
  simpl in E. now rewrite app_nil_r in E.
Qed.

(** * Further properties of the parser *)

(** ** What the parser steps over *)

Section Visits.

Variable tokens : list token.

Lemma all_grammatical_empty current : all_grammatical tokens current current.
Proof. intros i t Hi. lia. Qed.

Lemma all_grammatical_join a b c :
  all_grammatical tokens a b -> all_grammatical tokens b c ->
  all_grammatical tokens a c.
Proof.
  intros Hab Hbc i t Hi Ht.
  destruct (Nat.lt_ge_cases i b); [apply (Hab i) | apply (Hbc i)];
    auto; lia.
Qed.

Lemma all_grammatical_one current t :
  nth_error tokens current = Some t -> grammatical t ->
  all_grammatical tokens current (current + 1).
Proof.
  intros Ht Hg i t' Hi Ht'. assert (i = current) by lia. subst i.
  congruence.
Qed.

Lemma visits_ret {A} (a : A) current : visits tokens (ret a) current.
Proof. split; [lia | apply all_grammatical_empty]. Qed.

Lemma visits_raise {A} msg t current :
  nth_error tokens current = Some t ->
  visits tokens (@raise A (SyntaxError msg t)) current.
Proof.
  intros Ht. exists current.
  split; [lia|]. split; [assumption | apply all_grammatical_empty].
Qed.

Lemma visits_bind {A B} (m : Parser A) (f : A -> Parser B) current :
  visits tokens m current ->
  (forall a current', m current = Return a current' ->
                      visits tokens (f a) current') ->
  visits tokens (bind m f) current.
Proof.
  unfold visits, bind. intros Hm Hf.
  destruct (m current) as [a c1|[msg tok|]|]; auto.
  destruct Hm as [Hle Hg]. specialize (Hf a c1 eq_refl).
  destruct (f a c1) as [b c2|[msg tok|]|]; auto.
  - destruct Hf as [Hle' Hg']. split; [lia|].
    eapply all_grammatical_join; eauto.
  - destruct Hf as (i & Hi & Ht & Hg'). exists i.
    split; [lia|]. split; [assumption|].
    eapply all_grammatical_join; eauto.
Qed.

Lemma peek_returns current a current' :
  peek tokens current = Return a current' ->
  current' = current /\ nth_error tokens current = Some a.
Proof.
  unfold peek. destruct (nth_error tokens current); [|discriminate].
  now intros [= <- <-].
Qed.

Lemma visits_peek current : visits tokens (peek tokens) current.
Proof.
  unfold visits, peek. destruct (nth_error tokens current); [|exact I].
  split; [lia | apply all_grammatical_empty].
Qed.

(** [match] returns the token under the cursor, of the expected type and
    text, and moves the cursor by one. *)
Lemma match_returns ty expected current a current' :
  match_ tokens ty expected current = Return a current' ->
  current' = current + 1 /\ nth_error tokens current = Some a /\
  tok_type a = ty /\
  (forall v, expected = Some v -> v <> "" -> tok_text a = v).
Proof.
  unfold match_, bind, peek.
  destruct (nth_error tokens current) as [t|]; [|discriminate].
  destruct (token_type_eqb_spec (tok_type t) ty) as [Hty|];
    [|discriminate].
  cbn [negb]. cbv iota.
  destruct (truthy expected && value_differs t expected) eqn:V;
    [discriminate|].
  unfold advance, ret. intros [= <- <-]. repeat split; auto.
  intros v -> Hv. simpl in V.
  destruct (String.eqb_spec v ""); [contradiction|].
  destruct (String.eqb_spec (tok_text t) v); [assumption|discriminate].
Qed.

Lemma visits_match ty expected current :
  (forall t, nth_error tokens current = Some t -> tok_type t = ty ->
             (forall v, expected = Some v -> v <> "" -> tok_text t = v) ->
             grammatical t) ->
  visits tokens (match_ tokens ty expected) current.
Proof.
  intros Hg. unfold visits.
  destruct (match_ tokens ty expected current) as [a c|[msg tok|]|] eqn:M;
    auto.
  - apply match_returns in M as (-> & Ht & Hty & Hv).
    split; [lia|]. eapply all_grammatical_one; eauto.
  - exists current. split; [lia|].
    split; [|apply all_grammatical_empty].
    revert M. unfold match_, bind, peek, raise.
    destruct (nth_error tokens current) as [t|]; [|discriminate].
    destruct (negb _); [now intros [= _ <-]|].
    destruct (_ && _); [now intros [= _ <-] | discriminate].
Qed.

Lemma visits_advance {A} (a : A) current t :
  nth_error tokens current = Some t -> grammatical t ->
  visits tokens (advance ;; ret a) current.
Proof.
  intros Ht Hg. split; [lia|]. eapply all_grammatical_one; eauto.
Qed.

Lemma operator_grammatical t ops :
  is_operator_in t ops = true -> incl ops grammar_operators ->
  grammatical t.
Proof.
  unfold is_operator_in, grammatical. intros H Hincl.
  apply andb_prop in H as [Hty Htx].
  destruct (token_type_eqb_spec (tok_type t) OPERATOR) as [->|];
    [|discriminate].
  apply Hincl. now apply in_strings_In.
Qed.

Lemma sign_grammatical t v :
  tok_type t = SIGN -> tok_text t = v -> In v [";"; "("; ")"] ->
  grammatical t.
Proof. unfold grammatical. now intros -> ->. Qed.

Ltac same_token :=
  match goal with
  | H1 : nth_error tokens ?c = Some ?a, H2 : nth_error tokens ?c = Some ?b
    |- _ => assert (b = a) by congruence; subst b; clear H2
  end.

Ltac match_sign v :=
  apply visits_match;
  let t := fresh "t" in let Ht := fresh "Ht" in
  let Hty := fresh "Hty" in let Hv := fresh "Hv" in
  intros t Ht Hty Hv;
  apply (sign_grammatical t v);
  [assumption | apply Hv; [reflexivity | discriminate] | simpl; tauto].

Lemma expression_visits fuel :
  (forall current, visits tokens (parse_factor tokens fuel) current) /\
  (forall left current, visits tokens (term_loop tokens fuel left) current) /\
  (forall current, visits tokens (parse_term tokens fuel) current) /\
  (forall left current,
     visits tokens (expression_loop tokens fuel left) current) /\
  (forall current, visits tokens (parse_expression tokens fuel) current).
Proof.
  induction fuel as [|fuel (IHf & IHtl & IHt & IHel & IHe)].
  { repeat split; intros; exact I. }
  repeat split.
  - (* parse_factor *)
    intros current. cbn [parse_factor].
    apply visits_bind; [apply visits_peek|]. intros tok c Hp.
    apply peek_returns in Hp as [-> Htok].
    destruct (token_type_eqb_spec (tok_type tok) INTEGER) as [Hty|_].
    { eapply visits_advance; eauto. unfold grammatical. now rewrite Hty. }
    destruct (token_type_eqb_spec (tok_type tok) IDENTIFIER) as [Hty|_].
    { eapply visits_advance; eauto. unfold grammatical. now rewrite Hty. }
    destruct (token_type_eqb (tok_type tok) SIGN
              && String.eqb (tok_text tok) "(");
      [|now apply visits_raise].
    apply visits_bind; [match_sign "("|]. intros _ c1 _.
    apply visits_bind; [apply IHe|]. intros expr c2 _.
    apply visits_bind; [match_sign ")"|]. intros _ c3 _.
    apply visits_ret.
  - (* term_loop *)
    intros left current. cbn [term_loop].
    apply visits_bind; [apply visits_peek|]. intros tok c Hp.
    apply peek_returns in Hp as [-> Htok].
    destruct (is_operator_in tok ["*"; "/"]) eqn:Op; [|apply visits_ret].
    apply visits_bind.
    { apply visits_match. intros t Ht _ _. same_token.
      apply (operator_grammatical _ _ Op). unfold grammar_operators.
      intros x [<-|[<-|[]]]; simpl; tauto. }
    intros op c1 _. apply visits_bind; [apply IHf|]. intros right c2 _.
    apply IHtl.
  - (* parse_term *)
    intros current. cbn [parse_term].
    apply visits_bind; [apply IHf|]. intros left c1 _. apply IHtl.
  - (* expression_loop *)
    intros left current. cbn [expression_loop].
    apply visits_bind; [apply visits_peek|]. intros tok c Hp.
    apply peek_returns in Hp as [-> Htok].
    destruct (is_operator_in tok ["+"; "-"; "<"; ">"; "=="]) eqn:Op;
      [|apply visits_ret].
    apply visits_bind.
    { apply visits_match. intros t Ht _ _. same_token.
      apply (operator_grammatical _ _ Op). unfold grammar_operators.
      intros x [<-|[<-|[<-|[<-|[<-|[]]]]]]; simpl; tauto. }
    intros op c1 _. apply visits_bind; [apply IHt|]. intros right c2 _.
    apply IHel.
  - (* parse_expression *)
    intros current. cbn [parse_expression].
    apply visits_bind; [apply IHt|]. intros left c1 _. apply IHel.
Qed.

Lemma match_equals_visits current :
  visits tokens (match_ tokens OPERATOR (Some "=")) current.
Proof.
  apply visits_match. intros t Ht Hty Hv. unfold grammatical.
  rewrite Hty, (Hv "=" eq_refl) by discriminate.
  unfold grammar_operators. simpl. tauto.
Qed.

Lemma match_identifier_visits current :
  visits tokens (match_ tokens IDENTIFIER None) current.
Proof.
  apply visits_match. intros t Ht Hty Hv. unfold grammatical.
  now rewrite Hty.
Qed.

(** [parse_declaration] is entered on a type keyword only. *)
Lemma parse_declaration_visits fuel current tok :
  nth_error tokens current = Some tok ->
  in_strings (tok_text tok) ["int"; "float"; "double"] = true ->
  visits tokens (parse_declaration tokens fuel) current.
Proof.
  intros Htok Hin. unfold parse_declaration.
  apply visits_bind.
  { apply visits_match. intros t Ht Hty _. same_token.
    unfold grammatical. rewrite Hty. apply in_strings_In in Hin.
    simpl in *. tauto. }
  intros type_tok c1 _.
  apply visits_bind; [apply match_identifier_visits|]. intros id_tok c2 _.
  apply visits_bind; [apply visits_peek|]. intros next c3 _.
  destruct (token_type_eqb (tok_type next) OPERATOR
            && String.eqb (tok_text next) "=").
  - apply visits_bind; [apply match_equals_visits|]. intros _ c4 _.
    apply visits_bind; [apply expression_visits|]. intros expr c5 _.
    apply visits_bind; [match_sign ";"|]. intros _ c6 _.
    apply visits_ret.
  - apply visits_bind; [match_sign ";"|]. intros _ c4 _.
    apply visits_ret.
Qed.

Lemma parse_assignment_visits fuel current :
  visits tokens (parse_assignment tokens fuel) current.
Proof.
  unfold parse_assignment.
  apply visits_bind; [apply match_identifier_visits|]. intros id_tok c1 _.
  apply visits_bind; [apply match_equals_visits|]. intros _ c2 _.
  apply visits_bind; [apply expression_visits|]. intros expr c3 _.
  apply visits_bind; [match_sign ";"|]. intros _ c4 _.
  apply visits_ret.
Qed.

Lemma statement_visits fuel :
  (forall current, visits tokens (parse_statement tokens fuel) current) /\
  (forall current, visits tokens (parse_if tokens fuel) current).
Proof.
  induction fuel as [|fuel (IHs & IHi)].
  { split; intros; exact I. }
  split.
  - intros current. cbn [parse_statement].
    apply visits_bind; [apply visits_peek|]. intros tok c Hp.
    apply peek_returns in Hp as [-> Htok].
    destruct (token_type_eqb (tok_type tok) KEYWORD
              && in_strings (tok_text tok) ["int"; "float"; "double"])
      eqn:D.
    { apply andb_prop in D as [_ D].
      now apply (parse_declaration_visits fuel current tok). }
    destruct (token_type_eqb (tok_type tok) KEYWORD
              && String.eqb (tok_text tok) "if").
    { apply IHi. }
    destruct (token_type_eqb (tok_type tok) IDENTIFIER).
    { apply parse_assignment_visits. }
    now apply visits_raise.
  - intros current. cbn [parse_if].
    apply visits_bind.
    { apply visits_match. intros t Ht Hty Hv. unfold grammatical.
      rewrite Hty, (Hv "if" eq_refl) by discriminate. simpl. tauto. }
    intros _ c1 _. apply visits_bind; [match_sign "("|]. intros _ c2 _.
    apply visits_bind; [apply expression_visits|]. intros cond c3 _.
    apply visits_bind; [match_sign ")"|]. intros _ c4 _.
    apply visits_bind; [apply IHs|]. intros stmt c5 _.
    apply visits_ret.
Qed.

Lemma program_loop_visits fuel : forall statements current,
  visits tokens (program_loop tokens fuel statements) current.
Proof.
  induction fuel as [|fuel IH]; intros statements current; [exact I|].
  cbn [program_loop].
  apply visits_bind; [apply visits_peek|]. intros tok c Hp.
  apply peek_returns in Hp as [-> Htok].
  destruct (negb (token_type_eqb (tok_type tok) EOF)); [|apply visits_ret].
  apply visits_bind; [apply statement_visits|]. intros stmt c1 _.
  apply IH.
Qed.

Lemma parse_visits :
  visits tokens (parse_program tokens (enough_fuel tokens)) 0.
Proof. apply program_loop_visits. Qed.

End Visits.



Lemma parse_returns_grammatical tokens front eof program current :
  tokens = front ++ [eof] -> tok_type eof = EOF ->
  Forall (fun t => tok_type t <> EOF) front ->
  parse tokens = Return program current ->
  current = List.length front /\ Forall grammatical front.
Proof.
  intros E Heof Hfront P.
  destruct (parse_returns_consumed _ _ _ _ _ E Heof Hfront P) as [Hc _].
  split; [assumption|].
  pose proof (parse_visits tokens) as V.
  unfold visits in V. fold (parse tokens) in V. rewrite P in V.
  destruct V as [_ Hg]. apply Forall_forall. intros x Hx.
  apply In_nth_error in Hx as (i & Hi).
  apply (Hg i).
  - split; [lia|]. rewrite Hc. apply nth_error_Some. congruence.
  - rewrite E, nth_error_app1; [assumption|].
    apply nth_error_Some. congruence.
Qed.

(** X8. When the parser returns a program for a token list whose only
    [EOF] token is the last one, the cursor is on that [EOF] and every
    token before it is grammatical: no keyword other than the three types
    and [if], no operator outside the grammar's, no sign other than [;],
    [(] and [)], no unknown token. *)
Theorem accepted_program_is_grammatical
  (tokens front : list token) (eof : token) program current :
  tokens = front ++ [eof] -> tok_type eof = EOF ->
  Forall (fun t => tok_type t <> EOF) front ->
  parse tokens = Return program current ->
  current = List.length front /\ Forall grammatical front.
Proof. apply parse_returns_grammatical. Qed.

Lemma accepted_program_is_grammatical_witness :
  4 = List.length [Token IDENTIFIER "x" 1 1; Token OPERATOR "=" 1 2;
                   Token INTEGER "1" 1 3; Token SIGN ";" 1 4] /\
  Forall grammatical [Token IDENTIFIER "x" 1 1; Token OPERATOR "=" 1 2;
                      Token INTEGER "1" 1 3; Token SIGN ";" 1 4].
Proof.
  apply (accepted_program_is_grammatical
           [Token IDENTIFIER "x" 1 1; Token OPERATOR "=" 1 2;
            Token INTEGER "1" 1 3; Token SIGN ";" 1 4; Token EOF "" 1 5]
           [Token IDENTIFIER "x" 1 1; Token OPERATOR "=" 1 2;
            Token INTEGER "1" 1 3; Token SIGN ";" 1 4]
           (Token EOF "" 1 5)
           (Program [Assignment "x" (Number "1")]) 4).
  - reflexivity.
  - reflexivity.
  - repeat constructor; discriminate.
  - reflexivity.
Defined.

(** ** The whole front end *)




(** X11. A source of whitespace and newlines only compiles to the empty
    program. *)
Theorem blank_source_is_empty_program (source_code : string) :
  all_chars blank source_code = true ->
  run_compiler source_code = Some (Return (Program []) 0).
Proof.
  intros Hb. destruct (lexer_scans source_code) as (toks & l & c & E & Sc).
  rewrite (scans_blank _ _ _ _ _ _ Sc Hb) in E.
  unfold run_compiler. rewrite E. reflexivity.
Qed.

Lemma blank_source_is_empty_program_witness :
  run_compiler (String " " (String newline (String "009" "")))
  = Some (Return (Program []) 0).
Proof.
  exact (blank_source_is_empty_program
           (String " " (String newline (String "009" ""))) eq_refl).
Defined.

(** * Soundness of the parser for the grammar *)

Lemma post_ret {A} (a : A) current (Q : A -> nat -> Prop) :
  Q a current -> post (ret a) current Q.
Proof. exact (fun H => H). Qed.

Lemma post_bind {A B} (m : Parser A) (f : A -> Parser B) current Q :
  post m current (fun a current' => post (f a) current' Q) ->
  post (bind m f) current Q.
Proof.
  unfold post, bind. destruct (m current) as [a c'|e|]; auto.
Qed.

Lemma post_mono {A} (m : Parser A) current (Q Q' : A -> nat -> Prop) :
  post m current Q -> (forall a c, Q a c -> Q' a c) -> post m current Q'.
Proof.
  unfold post. destruct (m current) as [a c'|e|]; auto.
Qed.

Lemma post_raise {A} e current (Q : A -> nat -> Prop) :
  post (raise e) current Q.
Proof. exact I. Qed.

Section Soundness.

Variable tokens : list token.

Lemma slice_empty current : slice tokens current current = [].
Proof. unfold slice. now rewrite Nat.sub_diag. Qed.

Lemma slice_snoc from current t :
  from <= current -> nth_error tokens current = Some t ->
  slice tokens from (current + 1) = slice tokens from current ++ [t].
Proof.
  intros Hle Ht. unfold slice.
  replace (current + 1 - from) with (S (current - from)) by lia.
  assert (Hn : nth_error (skipn from tokens) (current - from) = Some t).
  { rewrite nth_error_skipn. now replace (from + (current - from))
      with current by lia. }
  revert Hn. generalize (skipn from tokens) (current - from).
  intros l n. revert l. induction n as [|n IH]; intros [|x l]; simpl;
    try discriminate.
  - intros [= ->]. now destruct l.
  - intros H. f_equal. now apply IH.
Qed.

Lemma slice_join a b c :
  a <= b -> b <= c ->
  slice tokens a b ++ slice tokens b c = slice tokens a c.
Proof.
  intros Hab Hbc. unfold slice.
  replace (skipn b tokens) with (skipn (b - a) (skipn a tokens))
    by (rewrite skipn_skipn; f_equal; lia).
  replace (c - a) with ((b - a) + (c - b)) by lia.
  generalize (skipn a tokens) (b - a) (c - b). intros l m n.
  revert l. induction m as [|m IH]; intros l; [reflexivity|].
  destruct l as [|x l]; simpl.
  - now rewrite firstn_nil.
  - f_equal. apply IH.
Qed.

Lemma slice_one current t :
  nth_error tokens current = Some t ->
  slice tokens current (current + 1) = [t].
Proof.
  intros Ht. rewrite (slice_snoc current current t) by auto.
  now rewrite slice_empty.
Qed.

Lemma slice_from_start current : slice tokens 0 current = firstn current tokens.
Proof. unfold slice. now rewrite Nat.sub_0_r. Qed.

Lemma post_peek current (Q : token -> nat -> Prop) :
  (forall t, nth_error tokens current = Some t -> Q t current) ->
  post (peek tokens) current Q.
Proof.
  intros H. unfold post, peek.
  destruct (nth_error tokens current); auto.
Qed.

Lemma post_advance current (Q : unit -> nat -> Prop) :
  Q tt (current + 1) -> post advance current Q.
Proof. exact (fun H => H). Qed.

Lemma post_match ty expected current (Q : token -> nat -> Prop) :
  (forall t, nth_error tokens current = Some t -> tok_type t = ty ->
             (forall v, expected = Some v -> v <> "" -> tok_text t = v) ->
             Q t (current + 1)) ->
  post (match_ tokens ty expected) current Q.
Proof.
  intros H. unfold post.
  destruct (match_ tokens ty expected current) as [a c|e|] eqn:M; auto.
  apply match_returns in M as (-> & Ht & Hty & Hv). auto.
Qed.

Ltac same_token :=
  repeat match goal with
  | H1 : nth_error tokens ?c = Some ?a, H2 : nth_error tokens ?c = Some ?b
    |- _ => assert (b = a) by congruence; subst b; clear H2
  end.

(** [parse_factor], [parse_term] and [parse_expression] return the tree of
    a derivation of the tokens they moved over; the loops extend the
    derivation built so far. *)
Lemma expression_sound fuel :
  (forall current,
     post (parse_factor tokens fuel) current
          (fun e c => current <= c /\ Factor (slice tokens current c) e)) /\
  (forall start left current,
     start <= current -> Term (slice tokens start current) left ->
     post (term_loop tokens fuel left) current
          (fun e c => current <= c /\ Term (slice tokens start c) e)) /\
  (forall current,
     post (parse_term tokens fuel) current
          (fun e c => current <= c /\ Term (slice tokens current c) e)) /\
  (forall start left current,
     start <= current -> Expression (slice tokens start current) left ->
     post (expression_loop tokens fuel left) current
          (fun e c => current <= c /\
                      Expression (slice tokens start c) e)) /\
  (forall current,
     post (parse_expression tokens fuel) current
          (fun e c => current <= c /\
                      Expression (slice tokens current c) e)).
Proof.
  induction fuel as [|fuel (IHf & IHtl & IHt & IHel & IHe)].
  { repeat split; intros; exact I. }
  repeat split.
  - (* parse_factor *)
    intros current. cbn [parse_factor].
    apply post_bind, post_peek. intros tok Htok.
    destruct (token_type_eqb_spec (tok_type tok) INTEGER) as [Hty|_].
    { apply post_bind, post_advance, post_ret. split; [lia|].
      rewrite (slice_one _ _ Htok). now constructor. }
    destruct (token_type_eqb_spec (tok_type tok) IDENTIFIER) as [Hty|_].
    { apply post_bind, post_advance, post_ret. split; [lia|].
      rewrite (slice_one _ _ Htok). now constructor. }
    destruct (token_type_eqb (tok_type tok) SIGN
              && String.eqb (tok_text tok) "("); [|apply post_raise].
    apply post_bind, post_match. intros t1 Ht1 Hty1 Hv1.
    apply post_bind. eapply post_mono; [apply IHe|].
    intros expr c2 [Hle2 He]. cbv beta.
    apply post_bind, post_match. intros t2 Ht2 Hty2 Hv2.
    apply post_ret. split; [lia|].
    rewrite <- (slice_join current (current + 1) (c2 + 1)) by lia.
    rewrite (slice_one _ _ Ht1), (slice_snoc _ _ _ Hle2 Ht2). simpl.
    constructor; [split | assumption | split]; auto.
    + apply Hv1; [reflexivity | discriminate].
    + apply Hv2; [reflexivity | discriminate].
  - (* term_loop *)
    intros start left current Hle Hleft. cbn [term_loop].
    apply post_bind, post_peek. intros tok Htok.
    destruct (is_operator_in tok ["*"; "/"]) eqn:Op;
      [|apply post_ret; split; [lia|assumption]].
    apply post_bind, post_match. intros op Hop _ _. same_token.
    apply post_bind. eapply post_mono; [apply IHf|].
    intros right c2 [Hle2 Hr]. cbv beta.
    eapply post_mono.
    { apply (IHtl start); [lia|].
      rewrite <- (slice_join start current c2) by lia.
      rewrite <- (slice_join current (current + 1) c2) by lia.
      rewrite (slice_one _ _ Htok). simpl.
      now apply Term_binary. }
    intros e c3 [Hle3 He]. split; [lia|assumption].
  - (* parse_term *)
    intros current. cbn [parse_term].
    apply post_bind. eapply post_mono; [apply IHf|].
    intros left c1 [Hle1 Hl]. cbv beta.
    eapply post_mono.
    { apply (IHtl current); [lia|]. now apply Term_factor. }
    intros e c2 [Hle2 He]. split; [lia|assumption].
  - (* expression_loop *)
    intros start left current Hle Hleft. cbn [expression_loop].
    apply post_bind, post_peek. intros tok Htok.
    destruct (is_operator_in tok ["+"; "-"; "<"; ">"; "=="]) eqn:Op;
      [|apply post_ret; split; [lia|assumption]].
    apply post_bind, post_match. intros op Hop _ _. same_token.
    apply post_bind. eapply post_mono; [apply IHt|].
    intros right c2 [Hle2 Hr]. cbv beta.
    eapply post_mono.
    { apply (IHel start); [lia|].
      rewrite <- (slice_join start current c2) by lia.
      rewrite <- (slice_join current (current + 1) c2) by lia.
      rewrite (slice_one _ _ Htok). simpl.
      now apply Expression_binary. }
    intros e c3 [Hle3 He]. split; [lia|assumption].
  - (* parse_expression *)
    intros current. cbn [parse_expression].
    apply post_bind. eapply post_mono; [apply IHt|].
    intros left c1 [Hle1 Hl]. cbv beta.
    eapply post_mono.
    { apply (IHel current); [lia|]. now apply Expression_term. }
    intros e c2 [Hle2 He]. split; [lia|assumption].
Qed.

Lemma type_keyword_intro t :
  tok_type t = KEYWORD ->
  in_strings (tok_text t) ["int"; "float"; "double"] = true ->
  is_type_keyword t.
Proof. intros Hty Hin. split; [assumption | now apply in_strings_In]. Qed.

(** [parse_declaration], entered on a type keyword. *)
Lemma parse_declaration_sound fuel current tok :
  nth_error tokens current = Some tok ->
  in_strings (tok_text tok) ["int"; "float"; "double"] = true ->
  post (parse_declaration tokens fuel) current
       (fun s c => current <= c /\ Statement (slice tokens current c) s).
Proof.
  intros Htok Hin. unfold parse_declaration.
  apply post_bind, post_match. intros ty Hty Hkw _. same_token.
  apply post_bind, post_match. intros id Hid Hidty _.
  apply post_bind, post_peek. intros next Hnext.
  destruct (token_type_eqb (tok_type next) OPERATOR
            && String.eqb (tok_text next) "=").
  - apply post_bind, post_match. intros eq Heq Heqty Heqv. same_token.
    apply post_bind. eapply post_mono; [apply expression_sound|].
    intros expr c1 [Hle1 He]. cbv beta.
    apply post_bind, post_match. intros semi Hsemi Hsty Hsv.
    apply post_ret. split; [lia|].
    rewrite <- (slice_join current (current + 1) (c1 + 1)) by lia.
    rewrite <- (slice_join (current + 1) (current + 1 + 1) (c1 + 1)) by lia.
    rewrite <- (slice_join (current + 1 + 1) (current + 1 + 1 + 1) (c1 + 1))
      by lia.
    rewrite (slice_one _ _ Htok), (slice_one _ _ Hid), (slice_one _ _ Hnext).
    rewrite (slice_snoc _ _ _ Hle1 Hsemi). simpl.
    constructor; auto using type_keyword_intro.
    + split; [assumption|]. apply Heqv; [reflexivity | discriminate].
    + split; [assumption|]. apply Hsv; [reflexivity | discriminate].
  - apply post_bind, post_match. intros semi Hsemi Hsty Hsv. same_token.
    apply post_ret. split; [lia|].
    rewrite <- (slice_join current (current + 1) (current + 1 + 1 + 1))
      by lia.
    rewrite <- (slice_join (current + 1) (current + 1 + 1)
                  (current + 1 + 1 + 1)) by lia.
    rewrite (slice_one _ _ Htok), (slice_one _ _ Hid), (slice_one _ _ Hnext).
    simpl. constructor; auto using type_keyword_intro.
    split; [assumption|]. apply Hsv; [reflexivity | discriminate].
Qed.

Lemma parse_assignment_sound fuel current :
  post (parse_assignment tokens fuel) current
       (fun s c => current <= c /\ Statement (slice tokens current c) s).
Proof.
  unfold parse_assignment.
  apply post_bind, post_match. intros id Hid Hidty _.
  apply post_bind, post_match. intros eq Heq Heqty Heqv.
  apply post_bind. eapply post_mono; [apply expression_sound|].
  intros expr c1 [Hle1 He]. cbv beta.
  apply post_bind, post_match. intros semi Hsemi Hsty Hsv.
  apply post_ret. split; [lia|].
  rewrite <- (slice_join current (current + 1) (c1 + 1)) by lia.
  rewrite <- (slice_join (current + 1) (current + 1 + 1) (c1 + 1)) by lia.
  rewrite (slice_one _ _ Hid), (slice_one _ _ Heq).
  rewrite (slice_snoc _ _ _ Hle1 Hsemi). simpl.
  constructor; auto.
  - split; [assumption|]. apply Heqv; [reflexivity | discriminate].
  - split; [assumption|]. apply Hsv; [reflexivity | discriminate].
Qed.

Lemma statement_sound fuel :
  (forall current,
     post (parse_statement tokens fuel) current
          (fun s c => current <= c /\
                      Statement (slice tokens current c) s)) /\
  (forall current,
     post (parse_if tokens fuel) current
          (fun s c => current <= c /\
                      Statement (slice tokens current c) s)).
Proof.
  induction fuel as [|fuel (IHs & IHi)].
  { split; intros; exact I. }
  split.
  - intros current. cbn [parse_statement].
    apply post_bind, post_peek. intros tok Htok.
    destruct (token_type_eqb (tok_type tok) KEYWORD
              && in_strings (tok_text tok) ["int"; "float"; "double"])
      eqn:D.
    { apply andb_prop in D as [_ D].
      now apply (parse_declaration_sound fuel current tok). }
    destruct (token_type_eqb (tok_type tok) KEYWORD
              && String.eqb (tok_text tok) "if").
    { apply IHi. }
    destruct (token_type_eqb (tok_type tok) IDENTIFIER).
    { apply parse_assignment_sound. }
    apply post_raise.
  - intros current. cbn [parse_if].
    apply post_bind, post_match. intros kw Hkw Hkwty Hkwv.
    apply post_bind, post_match. intros lp Hlp Hlpty Hlpv.
    apply post_bind. eapply post_mono; [apply expression_sound|].
    intros cond c1 [Hle1 Hc]. cbv beta.
    apply post_bind, post_match. intros rp Hrp Hrpty Hrpv.
    apply post_bind. eapply post_mono; [apply IHs|].
    intros stmt c2 [Hle2 Hs]. cbv beta.
    apply post_ret. split; [lia|].
    rewrite <- (slice_join current (current + 1) c2) by lia.
    rewrite <- (slice_join (current + 1) (current + 1 + 1) c2) by lia.
    rewrite <- (slice_join (current + 1 + 1) c1 c2) by lia.
    rewrite <- (slice_join c1 (c1 + 1) c2) by lia.
    rewrite (slice_one _ _ Hkw), (slice_one _ _ Hlp), (slice_one _ _ Hrp).
    simpl. constructor; auto.
    + split; [assumption|]. apply Hkwv; [reflexivity | discriminate].
    + split; [assumption|]. apply Hlpv; [reflexivity | discriminate].
    + split; [assumption|]. apply Hrpv; [reflexivity | discriminate].
Qed.

Lemma Statements_snoc ts stmts ts' stmt :
  Statements ts stmts -> Statement ts' stmt ->
  Statements (ts ++ ts') (stmts ++ [stmt]).
Proof.
  induction 1 as [|t s rest ss Hs _ IH]; intros H'.
  - simpl. rewrite <- (app_nil_r ts'). constructor; [assumption|constructor].
  - simpl. rewrite <- app_assoc. constructor; auto.
Qed.

(** The loop of [parse_program] extends a sequence of statements and
    returns it when it reaches an [EOF] token. *)
Lemma program_loop_sound fuel : forall statements current,
  Statements (slice tokens 0 current) statements ->
  post (program_loop tokens fuel statements) current
       (fun p c =>
          exists stmts, p = Program stmts /\
                        Statements (slice tokens 0 c) stmts /\
                        exists t, nth_error tokens c = Some t /\
                                  tok_type t = EOF).
Proof.
  induction fuel as [|fuel IH]; intros statements current Hss; [exact I|].
  cbn [program_loop].
  apply post_bind, post_peek. intros tok Htok.
  destruct (token_type_eqb_spec (tok_type tok) EOF) as [Heof|_];
    cbn [negb]; cbv iota.
  { apply post_ret. exists statements. split; [reflexivity|].
    split; [assumption|]. exists tok. auto. }
  apply post_bind. eapply post_mono; [apply statement_sound|].
  intros stmt c1 [Hle1 Hs]. cbv beta. apply IH.
  rewrite <- (slice_join 0 current c1) by lia.
  now apply Statements_snoc.
Qed.

End Soundness.

Lemma parse_derives (tokens : list token) program current :
  parse tokens = Return program current ->
  exists stmts,
    program = Program stmts /\
    Statements (firstn current tokens) stmts /\
    exists t, nth_error tokens current = Some t /\ tok_type t = EOF.
Proof.
  intros P.
  pose proof (program_loop_sound tokens (enough_fuel tokens) [] 0) as S.
  rewrite slice_empty in S. specialize (S Statements_nil).
  unfold post in S. fold (parse_program tokens (enough_fuel tokens)) in S.
  fold (parse tokens) in S. rewrite P in S.
  destruct S as (stmts & -> & Hs & Ht). exists stmts.
  rewrite slice_from_start in Hs. auto.
Qed.

(** X12. Soundness of the parser: when it returns, the result is
    [Program stmts] where [stmts] are the trees of a derivation, by the
    grammar, of exactly the tokens before the cursor, and the cursor is on
    an [EOF] token.  In a derivation binary operators nest to the left and
    [*], [/] bind tighter than [+], [-], [<], [>], [==]. *)
Theorem parse_sound (tokens : list token) program current :
  parse tokens = Return program current ->
  exists stmts,
    program = Program stmts /\
    Statements (firstn current tokens) stmts /\
    exists t, nth_error tokens current = Some t /\ tok_type t = EOF.
Proof. apply parse_derives. Qed.

Lemma parse_sound_witness :
  exists stmts,
    Program [Assignment "x" (Number "1")] = Program stmts /\
    Statements
      (firstn 4 [Token IDENTIFIER "x" 1 1; Token OPERATOR "=" 1 2;
                 Token INTEGER "1" 1 3; Token SIGN ";" 1 4;
                 Token EOF "" 1 5]) stmts /\
    exists t,
      nth_error [Token IDENTIFIER "x" 1 1; Token OPERATOR "=" 1 2;
                 Token INTEGER "1" 1 3; Token SIGN ";" 1 4;
                 Token EOF "" 1 5] 4 = Some t /\ tok_type t = EOF.
Proof.
  exact (parse_sound
           [Token IDENTIFIER "x" 1 1; Token OPERATOR "=" 1 2;
            Token INTEGER "1" 1 3; Token SIGN ";" 1 4; Token EOF "" 1 5]
           (Program [Assignment "x" (Number "1")]) 4 eq_refl).
Defined.

(** * Completeness of the parser for the grammar *)

Section Completeness.

Variable tokens : list token.




(** *** Running the primitive procedures *)



Lemma bind_advance {B} (k : unit -> Parser B) current :
  bind advance k current = k tt (current + 1).
Proof. reflexivity. Qed.






(** *** The loops *)



(** *** From decompositions to the procedures *)



(** *** Expressions *)




(** *** Statements *)








End Completeness.


(** * The parser does not look at positions *)

Lemma similar_bind {A B} (R : A -> A -> Prop) (R' : B -> B -> Prop)
  (m m' : Parser A) (k k' : A -> Parser B) current :
  similar R (m current) (m' current) ->
  (forall a a' c, R a a' -> similar R' (k a c) (k' a' c)) ->
  similar R' (bind m k current) (bind m' k' current).
Proof.
  unfold bind, similar. intros Hm Hk.
  destruct (m current) as [a c|[msg t|]|], (m' current) as [a' c'|[msg' t'|]|];
    try contradiction; auto.
  destruct Hm as [Ha <-]. now apply Hk.
Qed.

Lemma similar_ret {A} (R : A -> A -> Prop) a a' current :
  R a a' -> similar R (ret a current) (ret a' current).
Proof. intros H. now split. Qed.

Lemma similar_raise {A} (R : A -> A -> Prop) msg t t' current :
  same_key t t' ->
  similar R (raise (SyntaxError msg t) current)
            (raise (SyntaxError msg t') current).
Proof. intros H. now split. Qed.

Lemma Forall2_nth_error {A} (R : A -> A -> Prop) l l' :
  Forall2 R l l' ->
  forall n,
    match nth_error l n, nth_error l' n with
    | Some a, Some b => R a b
    | None, None => True
    | _, _ => False
    end.
Proof.
  induction 1 as [|a b l l' Hab _ IH]; intros [|n]; simpl; auto.
  apply IH.
Qed.

Section Layout.

Variables tokens tokens' : list token.

Hypothesis same_keys : Forall2 same_key tokens tokens'.

Lemma similar_peek current :
  similar same_key (peek tokens current) (peek tokens' current).
Proof.
  unfold peek. pose proof (Forall2_nth_error _ _ _ same_keys current) as H.
  destruct (nth_error tokens current), (nth_error tokens' current);
    try contradiction; simpl; auto.
Qed.

Lemma similar_match ty expected current :
  similar same_key (match_ tokens ty expected current)
                   (match_ tokens' ty expected current).
Proof.
  unfold match_. eapply similar_bind; [apply similar_peek|].
  intros a a' c [Hty Htx]. unfold value_differs. rewrite <- Hty, <- Htx.
  destruct (negb (token_type_eqb (tok_type a) ty)).
  { apply similar_raise. now split. }
  destruct (truthy expected && _).
  { apply similar_raise. now split. }
  eapply similar_bind with (R := eq); [now split|].
  intros _ _ c' _. apply similar_ret. now split.
Qed.

Ltac with_peek a a' Hty Htx :=
  eapply similar_bind; [apply similar_peek|];
  let c := fresh "c" in
  intros a a' c [Hty Htx]; try rewrite <- Hty; try rewrite <- Htx;
  unfold is_operator_in; try rewrite <- Hty; try rewrite <- Htx.

Ltac with_match a a' :=
  eapply similar_bind; [apply similar_match|];
  let c := fresh "c" in
  let Hty := fresh "Hmty" in let Htx := fresh "Hmtx" in
  intros a a' c [Hty Htx]; try rewrite <- Htx.

Ltac with_call IH a :=
  eapply similar_bind with (R := eq); [apply IH|];
  intros a ? ? <-.

Lemma expression_layout fuel :
  (forall current,
     similar eq (parse_factor tokens fuel current)
                (parse_factor tokens' fuel current)) /\
  (forall left current,
     similar eq (term_loop tokens fuel left current)
                (term_loop tokens' fuel left current)) /\
  (forall current,
     similar eq (parse_term tokens fuel current)
                (parse_term tokens' fuel current)) /\
  (forall left current,
     similar eq (expression_loop tokens fuel left current)
                (expression_loop tokens' fuel left current)) /\
  (forall current,
     similar eq (parse_expression tokens fuel current)
                (parse_expression tokens' fuel current)).
Proof.
  induction fuel as [|fuel (IHf & IHtl & IHt & IHel & IHe)].
  { repeat split; intros; exact I. }
  repeat split.
  - intros current. cbn [parse_factor]. with_peek tok tok' Hty Htx.
    destruct (token_type_eqb (tok_type tok) INTEGER).
    { eapply similar_bind with (R := eq); [now split|].
      intros _ _ c' _. now apply similar_ret. }
    destruct (token_type_eqb (tok_type tok) IDENTIFIER).
    { eapply similar_bind with (R := eq); [now split|].
      intros _ _ c' _. now apply similar_ret. }
    destruct (_ && _); [|apply similar_raise; now split].
    with_match p p'. with_call IHe expr. with_match q q'.
    now apply similar_ret.
  - intros left current. cbn [term_loop]. with_peek tok tok' Hty Htx.
    destruct (_ && _); [|now apply similar_ret].
    with_match op op'. with_call IHf rhs. apply IHtl.
  - intros current. cbn [parse_term]. with_call IHf lhs. apply IHtl.
  - intros left current. cbn [expression_loop]. with_peek tok tok' Hty Htx.
    destruct (_ && _); [|now apply similar_ret].
    with_match op op'. with_call IHt rhs. apply IHel.
  - intros current. cbn [parse_expression]. with_call IHt lhs. apply IHel.
Qed.

Lemma parse_declaration_layout fuel current :
  similar eq (parse_declaration tokens fuel current)
             (parse_declaration tokens' fuel current).
Proof.
  unfold parse_declaration. with_match ty ty'. with_match idt idt'.
  with_peek tok tok' Hty Htx.
  destruct (_ && _).
  - with_match eqt eqt'. with_call (proj2 (proj2 (proj2 (proj2
      (expression_layout fuel))))) expr.
    with_match semi semi'. now apply similar_ret.
  - with_match semi semi'. now apply similar_ret.
Qed.

Lemma parse_assignment_layout fuel current :
  similar eq (parse_assignment tokens fuel current)
             (parse_assignment tokens' fuel current).
Proof.
  unfold parse_assignment. with_match idt idt'. with_match eqt eqt'.
  with_call (proj2 (proj2 (proj2 (proj2 (expression_layout fuel))))) expr.
  with_match semi semi'. now apply similar_ret.
Qed.

Lemma statement_layout fuel :
  (forall current,
     similar eq (parse_statement tokens fuel current)
                (parse_statement tokens' fuel current)) /\
  (forall current,
     similar eq (parse_if tokens fuel current)
                (parse_if tokens' fuel current)).
Proof.
  induction fuel as [|fuel (IHs & IHi)].
  { split; intros; exact I. }
  split.
  - intros current. cbn [parse_statement]. with_peek tok tok' Hty Htx.
    destruct (_ && in_strings _ _); [apply parse_declaration_layout|].
    destruct (_ && _); [apply IHi|].
    destruct (token_type_eqb _ _); [apply parse_assignment_layout|].
    apply similar_raise. now split.
  - intros current. cbn [parse_if]. with_match kw kw'. with_match lp lp'.
    with_call (proj2 (proj2 (proj2 (proj2 (expression_layout fuel))))) cond.
    with_match rp rp'. with_call IHs stmt. now apply similar_ret.
Qed.

Lemma program_loop_layout fuel : forall statements current,
  similar eq (program_loop tokens fuel statements current)
             (program_loop tokens' fuel statements current).
Proof.
  induction fuel as [|fuel IH]; intros statements current; [exact I|].
  cbn [program_loop]. with_peek tok tok' Hty Htx.
  destruct (negb _); [|now apply similar_ret].
  with_call (proj1 (statement_layout fuel)) stmt. apply IH.
Qed.

End Layout.

Lemma parse_layout (tokens tokens' : list token) :
  Forall2 same_key tokens tokens' ->
  similar eq (parse tokens) (parse tokens').
Proof.
  intros H. unfold parse, parse_program, enough_fuel.
  rewrite <- (Forall2_length H). now apply program_loop_layout.
Qed.

(** X14. The parser looks only at the types and texts of the tokens: on
    two token lists that agree in them, position by position, it returns
    the same program with the same cursor, or raises [SyntaxError] with
    the same message on tokens of the same type and text. *)
Theorem parse_ignores_positions (tokens tokens' : list token) :
  Forall2 same_key tokens tokens' ->
  similar eq (parse tokens) (parse tokens').
Proof. apply parse_layout. Qed.

Lemma parse_ignores_positions_witness :
  similar eq
    (parse [Token IDENTIFIER "x" 1 1; Token OPERATOR "=" 1 2;
            Token INTEGER "1" 1 3; Token SIGN ";" 1 4; Token EOF "" 1 5])
    (parse [Token IDENTIFIER "x" 2 4; Token OPERATOR "=" 3 1;
            Token INTEGER "1" 3 9; Token SIGN ";" 7 1; Token EOF "" 9 1]).
Proof.
  apply parse_ignores_positions. repeat constructor.
Defined.

Lemma maps_same_key (a b : list token) :
  map tok_type a = map tok_type b -> map tok_text a = map tok_text b ->
  Forall2 same_key a b.
Proof.
  revert b. induction a as [|x a IH]; intros [|y b]; simpl; try discriminate.
  - constructor.
  - intros [= Hty Htys] [= Htx Htxs]. constructor; [now split | auto].
Qed.

(** X15. Layout does not matter to the front end: compiling the token
    texts of a source joined by single spaces gives the same program, or
    the same [SyntaxError] message on a token of the same type and text,
    as compiling the source itself. *)
Theorem run_compiler_ignores_layout (source_code : string) :
  exists tokens r r',
    lexical_analyzer_from_text source_code = Some tokens /\
    run_compiler source_code = Some r /\
    run_compiler (joined tokens) = Some r' /\
    similar eq r r'.
Proof.
  destruct (lexer_scans source_code) as (toks & l & c & E & Sc).
  pose proof (scans_lexemes _ _ _ _ _ _ Sc) as Hlex.
  destruct (relex_loop toks
              (String.length (joined (toks ++ [Token EOF "" 0 0]))) 1 1 []
              Hlex (le_n _)) as (toks' & l' & c' & E' & Hk & Ht).
  exists (toks ++ [Token EOF "" l c]),
    (parse (toks ++ [Token EOF "" l c])),
    (parse (toks' ++ [Token EOF "" l' c'])).
  split; [exact E|]. split; [unfold run_compiler; now rewrite E|]. split.
  - unfold run_compiler, lexical_analyzer_from_text.
    rewrite joined_eof. simpl in E'. now rewrite E'.
  - apply parse_layout. apply maps_same_key.
    + rewrite !map_app, Hk. reflexivity.
    + rewrite !map_app, Ht. reflexivity.
Qed.

Lemma parse_returns_on_EOF tokens program current :
  parse tokens = Return program current ->
  exists t, nth_error tokens current = Some t /\ tok_type t = EOF.
Proof.
  intros P. apply parse_derives in P as (stmts & _ & _ & Ht). exact Ht.
Qed.

(** X16. The end marker is required: on a token list with no [EOF] token
    the parser never returns a program. *)
Theorem no_EOF_never_accepted (tokens : list token) program current :
  Forall (fun t => tok_type t <> EOF) tokens ->
  parse tokens <> Return program current.
Proof.
  intros Hall P. apply parse_returns_on_EOF in P as (t & Ht & Heof).
  rewrite Forall_forall in Hall.
  exact (Hall t (nth_error_In _ _ Ht) Heof).
Qed.

Lemma no_EOF_never_accepted_witness :
  parse [Token IDENTIFIER "x" 1 1; Token OPERATOR "=" 1 2;
         Token INTEGER "1" 1 3; Token SIGN ";" 1 4]
  <> Return (Program [Assignment "x" (Number "1")]) 4.
Proof.
  apply no_EOF_never_accepted. repeat constructor; discriminate.
Defined.

(** * The accepted language *)

(** * The recursion budget *)




Section Budget.

Variable tokens : list token.










End Budget.

(** * Unrecognized characters *)

Lemma append_split text : forall rest pre ch post,
  (text ++ rest)%string = (pre ++ String ch post)%string ->
  (exists b, text = (pre ++ String ch b)%string /\
             post = (b ++ rest)%string) \/
  (exists pre', pre = (text ++ pre')%string /\
                rest = (pre' ++ String ch post)%string).
Proof.
  induction text as [|x text IH]; intros rest pre ch post E.
  - right. exists pre. auto.
  - destruct pre as [|y pre]; simpl in E; injection E as -> E.
    + left. exists text. auto.
    + apply IH in E as [(b & -> & ->) | (pre' & -> & ->)].
      * left. exists b. auto.
      * right. exists pre'. auto.
Qed.

Lemma all_chars_inside p a ch b :
  all_chars p (a ++ String ch b) = true -> p ch = true.
Proof.
  rewrite all_chars_append. simpl. intros H.
  apply andb_prop in H as [_ H]. now apply andb_prop in H as [H _].
Qed.

Lemma keyword_letters text :
  In text KEYWORDS ->
  all_chars (fun c => (next_state 0 c =? 1)%Z) text = true.
Proof.
  intros [<-|[<-|[<-|[<-|[<-|[]]]]]]; reflexivity.
Qed.

(** A character that is in no start class is a lexeme of its own, or
    continues an identifier (which it can only do if alphanumeric). *)
Lemma lexeme_unrecognized a ch b ty :
  lexeme_type (a ++ String ch b) = Some ty ->
  next_state 0 ch = 8%Z ->
  a = "" /\ b = "" /\ ty = UNKNOWN \/
  a <> "" /\ word_char ch = true /\ ty = IDENTIFIER.
Proof.
  intros Hty H8. destruct a as [|c0 a].
  - left. simpl in Hty. unfold lexeme_type in Hty. rewrite H8 in Hty.
    simpl in Hty. destruct b; [|discriminate]. injection Hty as <-. auto.
  - right. split; [discriminate|].
    pose proof (proj2 (proj2 (proj2 (proj2 (next_state_start_inv ch)))) H8)
      as (_ & _ & Hnd & _ & _).
    simpl append in Hty. unfold lexeme_type in Hty.
    destruct (next_state_start c0) as [[E _] | [_ E]].
    { rewrite E in Hty. discriminate. }
    destruct E as [E|[E|[E|[E|E]]]]; rewrite E in Hty; simpl Z.eqb in Hty;
      cbv iota in Hty.
    + destruct (all_chars (accepts 1) (a ++ String ch b)) eqn:A;
        [|discriminate].
      apply accepts_word, all_chars_inside in A. split; [assumption|].
      destruct (in_strings _ KEYWORDS) eqn:K; [|congruence].
      exfalso. apply in_strings_In, keyword_letters in K.
      apply (all_chars_inside _ (String c0 a)) in K.
      apply Z.eqb_eq in K. lia.
    + destruct (all_chars (accepts 3) (a ++ String ch b)) eqn:A;
        [|discriminate].
      apply accepts_digits, all_chars_inside in A. congruence.
    + destruct (a ++ String ch b)%string eqn:X;
        [destruct a; discriminate|]. rewrite <- X in Hty.
      destruct (in_strings _ _) eqn:D; [|discriminate].
      apply double_operator_inv in D as (x & [= _ D]).
      destruct a as [|? [|? ?]]; simpl in D; try discriminate.
      injection D as -> _. discriminate.
    + destruct a; discriminate.
    + destruct a; discriminate.
Qed.

(** Every character of the input that is not blank lies in the text of a
    token, recorded at the position where that text starts. *)
Lemma scans_covers code line col toks l c :
  scans code line col toks l c ->
  forall before line_prefix,
    line_start before -> newlines line_prefix = 0 ->
    line = 1 + newlines before -> col = 1 + String.length line_prefix ->
    forall pre ch post,
      code = (pre ++ String ch post)%string -> blank ch = false ->
      exists tok a b before' line_prefix',
        In tok toks /\ tok_text tok = (a ++ String ch b)%string /\
        (before ++ line_prefix ++ pre)%string
        = (before' ++ line_prefix' ++ a)%string /\
        line_start before' /\ newlines line_prefix' = 0 /\
        tok_line tok = 1 + newlines before' /\
        tok_col tok = 1 + String.length line_prefix'.
Proof.
  induction 1 as [line col
                  | rest line col toks l c _ IH
                  | sp rest line col toks l c Hnl Hsp _ IH
                  | tok rest line col toks l c Hty Hl Hc _ IH];
    intros before lp Hb Hlp Hline Hcol pre ch post Hcode Hblank.
  - destruct pre; discriminate.
  - destruct pre as [|y pre]; simpl in Hcode; injection Hcode as <- Hcode.
    { discriminate. }
    destruct (IH (before ++ lp ++ String newline "")%string ""
                ltac:(right; exists (before ++ lp)%string;
                      now rewrite append_assoc)
                eq_refl
                ltac:(rewrite !newlines_append; simpl; lia)
                eq_refl pre ch post Hcode Hblank)
      as (t & a & b & b' & lp' & Hin & Ht & E & H1 & H2 & H3 & H4).
    exists t, a, b, b', lp'. repeat split; auto.
    rewrite <- E. rewrite !append_assoc. reflexivity.
  - destruct pre as [|y pre]; simpl in Hcode; injection Hcode as <- Hcode.
    { unfold blank in Hblank. rewrite Hsp, orb_true_r in Hblank.
      discriminate. }
    destruct (IH before (lp ++ String sp "")%string Hb
                ltac:(rewrite newlines_append; simpl;
                      destruct (Ascii.eqb_spec sp newline);
                      [contradiction | lia])
                Hline
                ltac:(rewrite length_append; simpl; lia)
                pre ch post Hcode Hblank)
      as (t & a & b & b' & lp' & Hin & Ht & E & H1 & H2 & H3 & H4).
    exists t, a, b, b', lp'. repeat split; auto.
    rewrite <- E. rewrite !append_assoc. reflexivity.
  - apply append_split in Hcode as [(b & Ht & ->) | (pre' & -> & Hrest)].
    + exists tok, pre, b, before, lp. repeat split; auto; try lia.
      now left.
    + destruct (IH before (lp ++ tok_text tok)%string Hb
                  ltac:(rewrite newlines_append, Hlp; simpl;
                        apply newlines_nonblank;
                        exact (lexeme_type_nonblank _ _ Hty))
                  Hline
                  ltac:(rewrite length_append; lia)
                  pre' ch post Hrest Hblank)
        as (t & a & b & b' & lp' & Hin & Ht & E & H1 & H2 & H3 & H4).
      exists t, a, b, b', lp'. repeat split; auto; [now right|].
      rewrite <- E. rewrite !append_assoc. reflexivity.
Qed.

Lemma unrecognized_not_blank ch : next_state 0 ch = 8%Z -> blank ch = false.
Proof. by_table ch. Qed.

(** C2. For every input the lexer returns (never runs out of fuel, never
    fails) a non-empty sequence whose last element is the [EOF] token and
    whose other elements are not [EOF].  Every [UNKNOWN] token is a single
    character outside all start classes.  Every character of the input
    that is in no start class yields a token of the output: an [UNKNOWN]
    token made of that character alone, recorded at its position (one more
    than the newlines before it, one more than the characters before it
    on its line), unless it is alphanumeric and continues an identifier.
    Met in the start state, such a character is always emitted as an
    [UNKNOWN] token of its own. *)
Theorem tokenizer_total (code : string) :
  (exists toks l c,
     lexical_analyzer_from_text code = Some (toks ++ [Token EOF "" l c]) /\
     Forall (fun t => tok_type t <> EOF) toks /\
     Forall (fun t => tok_type t = UNKNOWN ->
                      exists ch, tok_text t = String ch "" /\
                                 next_state 0 ch = 8%Z) toks /\
     (forall pre ch post,
        code = (pre ++ String ch post)%string ->
        next_state 0 ch = 8%Z ->
        exists t,
          In t toks /\
          (tok_type t = UNKNOWN /\ tok_text t = String ch "" /\
           (exists before line_prefix,
              pre = (before ++ line_prefix)%string /\
              line_start before /\ newlines line_prefix = 0 /\
              tok_line t = 1 + newlines before /\
              tok_col t = 1 + String.length line_prefix)
           \/
           word_char ch = true /\ tok_type t = IDENTIFIER /\
           (exists a b, a <> "" /\
                        tok_text t = (a ++ String ch b)%string)))) /\
  (forall ch rest line col,
     next_state 0 ch = 8%Z ->
     lex_iteration ch rest line col
     = (Some (Token UNKNOWN (String ch "") line col), rest, line, col + 1)).
Proof.
  split.
  - destruct (lexer_scans code) as (toks & l & c & E & Sc).
    exists toks, l, c. split; [exact E|].
    pose proof (scans_lexemes _ _ _ _ _ _ Sc) as Hlex.
    split; [|split].
    + eapply Forall_impl; [|exact Hlex]. intros t Ht Heof. cbv beta in Ht.
      rewrite Heof in Ht. exact (lexeme_type_not_EOF _ Ht).
    + eapply Forall_impl; [|exact Hlex]. intros t Ht Hu. cbv beta in Ht.
      rewrite Hu in Ht. exact (lexeme_type_UNKNOWN _ Ht).
    + intros pre ch post Hcode H8.
      destruct (scans_covers _ _ _ _ _ _ Sc "" "" (or_introl eq_refl)
                  eq_refl eq_refl eq_refl pre ch post Hcode
                  (unrecognized_not_blank ch H8))
        as (t & a & b & before & lp & Hin & Ht & Hpre & Hb & Hlp & Hl & Hc).
      exists t. split; [assumption|].
      rewrite Forall_forall in Hlex. specialize (Hlex t Hin).
      rewrite Ht in Hlex.
      destruct (lexeme_unrecognized _ _ _ _ Hlex H8)
        as [(-> & -> & Hu) | (Ha & Hw & Hi)].
      * left. split; [assumption|]. split; [assumption|].
        exists before, lp. simpl in Hpre. rewrite append_nil_r in Hpre.
        auto.
      * right. split; [assumption|]. split; [assumption|]. eauto.
  - intros ch rest line col E. unfold lex_iteration.
    rewrite (unknown_start ch E), E. simpl Z.eqb. cbv iota.
    rewrite extend_stops by lia. reflexivity.
Qed.

Lemma tokenizer_total_witness :
  exists toks l c,
    lexical_analyzer_from_text "x = @;"
    = Some (toks ++ [Token EOF "" l c]) /\
    exists t,
      In t toks /\
      (tok_type t = UNKNOWN /\ tok_text t = "@" /\
       (exists before line_prefix,
          "x = " = (before ++ line_prefix)%string /\
          line_start before /\ newlines line_prefix = 0 /\
          tok_line t = 1 + newlines before /\
          tok_col t = 1 + String.length line_prefix)
       \/
       word_char "@" = true /\ tok_type t = IDENTIFIER /\
       (exists a b, a <> "" /\ tok_text t = (a ++ String "@" b)%string)).
Proof.
  destruct (tokenizer_total "x = @;") as ((toks & l & c & E & _ & _ & H) & _).
  exists toks, l, c. split; [exact E|].
  exact (H "x = " "@"%char ";" eq_refl eq_refl).
Defined.

(** * Outcomes under a recursion budget *)

(** Every level of parentheses nests three calls ([parse_expression],
    [parse_term], [parse_factor]), so 400 levels need 1200 nested calls,
    more than the interpreter's default limit of 1000. *)


















